(** * photos2.py: perceptual-hash photo deduplication

    A shallow embedding of [photos2.py] and the properties of its
    deduplication procedure ([Photo.find_unique_images],
    [Photo._calculate_similarity]), of the placement step
    ([Photo.process_unique_files]) and of the command line driver ([main]).

    Conventions of the embedding.
    - Python [str] is [string]; Python [int] is [Z] (thresholds, hash sizes,
      which may be negative) or [nat] (lengths, loop counters).
    - Python's insertion-ordered [dict] is an association list with unique
      keys: iteration order is list order, and assigning to a key that is
      present replaces the value in place.
    - [_calculate_similarity] returns a Python float; it is embedded as the
      exact rational the float rounds.  What the properties below use of the
      score holds of the float as well: it is symmetric, it is 0.0 on strings
      of unequal length and 100.0 on a non-empty string and itself, and the
      two values computed for C3 are binary fractions.
    - The log is the sequence of the records handed to [logging], each with
      its level; which of them the configured handlers print is not
      modelled.
    - Exceptions are explicit: a fallible expression returns [result], the
      [try]/[except] of the loops inspects it.
    - The libraries the program calls (PIL, imagehash, os, shutil) are the
      environment: decoding and hashing a file is an oracle, the file system
      is the list of the paths that exist. *)

From Stdlib Require Import String Ascii List ZArith QArith Lia Bool Arith.
From Stdlib Require Import DecimalString DecimalNat Lqa.
Import ListNotations.

Local Close Scope Q_scope.
Local Open Scope string_scope.
Local Open Scope list_scope.

(** ** Results of fallible expressions *)

Inductive result (A : Type) : Type :=
| Ok (a : A)
| ZeroDivisionError.

Arguments Ok {A} a.
Arguments ZeroDivisionError {A}.

(** ** Python dictionaries (insertion ordered) *)

Module Dict.

Definition t : Type := list (string * string).

Definition empty : t := [].

Definition keys (d : t) : list string := map fst d.

Definition values (d : t) : list string := map snd d.

(** [d[k]], [None] for [KeyError]. *)
Fixpoint get (d : t) (k : string) : option string :=
  match d with
  | [] => None
  | (k', v) :: rest => if String.eqb k' k then Some v else get rest k
  end.

(** [d[k] = v]: the value is replaced where the key stands, a new key goes
    to the end. *)
Fixpoint set (d : t) (k v : string) : t :=
  match d with
  | [] => [(k, v)]
  | (k', v') :: rest =>
      if String.eqb k' k then (k', v) :: rest else (k', v') :: set rest k v
  end.

Definition len (d : t) : nat := List.length d.

End Dict.

(** ** [Photo._calculate_similarity] *)

(** [sum(bit1 != bit2 for bit1, bit2 in zip(hash1, hash2))]: [zip] stops at
    the shorter string, and the items it pairs are the characters of the two
    strings. *)
Fixpoint diff_bits (hash1 hash2 : string) : nat :=
  match hash1, hash2 with
  | String bit1 rest1, String bit2 rest2 =>
      (if Ascii.eqb bit1 bit2 then 0 else 1) + diff_bits rest1 rest2
  | _, _ => 0
  end.

Definition _calculate_similarity (hash1 hash2 : string) : result Q :=
  if negb (String.length hash1 =? String.length hash2)%nat then Ok 0%Q
  else if (String.length hash1 =? 0)%nat then ZeroDivisionError
  else Ok (100 - inject_Z (Z.of_nat (diff_bits hash1 hash2) * 100)
                 / inject_Z (Z.of_nat (String.length hash1)))%Q.

(** ** Logging *)

Inductive level : Type := DEBUG | INFO | WARNING | ERROR.

Inductive message : Type :=
| LoggingTo (log_file : string)
| Processed (i total_files : nat)
| SkippingCorrupted (filepath : string)
| ErrorProcessing (filepath : string)
| InputDirectoryMissing (directory : string)
| NoSupportedImages (directory : string)
| CreatedOutputDirectory (output_directory : string)
| ErrorCreatingOutputDirectory
| Placing (i total_files : nat) (filepath : string)
| PlacedHash (hash_value : string)
| ErrorPlacing (filepath : string)
| ThresholdOutOfRange
| Starting
| InputDirectory (directory : string)
| OutputDirectory (directory : string)
| Options (copy : bool) (hash_size threshold : Z) (debug : bool)
| Found (unique total : nat).

Definition log_record : Type := (level * message)%type.

Definition is_warning (r : log_record) : bool :=
  match fst r with WARNING => true | _ => false end.

Definition warnings (log : list log_record) : list log_record :=
  filter is_warning log.

(** ** [Photo.find_unique_images] *)

(** What [Image.open(filepath)] followed by
    [str(imagehash.average_hash(img, hash_size))] does on a file. *)
Inductive image_outcome : Type :=
| Hashed (hash_value : string)
| UnidentifiedImageError
| OtherException.

Section FindUniqueImages.

(** The decoder and hasher of the environment. *)
Variable average_hash : string -> Z -> image_outcome.

Variable hash_size : Z.
Variable threshold : Z.

(** [self._calculate_similarity(hash_value, existing_hash) >= threshold] *)
Definition similar_enough (hash_value existing_hash : string) : result bool :=
  match _calculate_similarity hash_value existing_hash with
  | Ok s => Ok (Qle_bool (inject_Z threshold) s)
  | ZeroDivisionError => ZeroDivisionError
  end.

(** The inner loop [for existing_hash in unique_images: ... break]: the
    value of [is_similar] when it ends, or the exception that leaves it. *)
Fixpoint is_similar (hash_value : string) (existing : list string)
  : result bool :=
  match existing with
  | [] => Ok false
  | existing_hash :: rest =>
      match similar_enough hash_value existing_hash with
      | ZeroDivisionError => ZeroDivisionError
      | Ok true => Ok true
      | Ok false => is_similar hash_value rest
      end
  end.

(** The state the outer loop threads: the dictionary and the log. *)
Record state : Type := State {
  unique_images : Dict.t;
  log : list log_record
}.

Definition initial : state := State Dict.empty [].

Definition emit (r : log_record) (st : state) : state :=
  State (unique_images st) (log st ++ [r]).

(** [if i % max(1, total_files // 10) == 0: logging.info(...)] *)
Definition progress (total_files i : nat) (st : state) : state :=
  if (i mod (Nat.max 1 (total_files / 10)) =? 0)%nat
  then emit (INFO, Processed i total_files) st
  else st.

Definition store (hash_value filepath : string) (st : state) : state :=
  State (Dict.set (unique_images st) hash_value filepath) (log st).

(** One iteration of [for i, filepath in enumerate(files, 1)]. *)
Definition iteration (total_files : nat) (st : state) (i : nat)
           (filepath : string) : state :=
  match average_hash filepath hash_size with
  | UnidentifiedImageError => emit (WARNING, SkippingCorrupted filepath) st
  | OtherException => emit (ERROR, ErrorProcessing filepath) st
  | Hashed hash_value =>
      if (0 <? threshold)%Z then
        match is_similar hash_value (Dict.keys (unique_images st)) with
        | ZeroDivisionError => emit (ERROR, ErrorProcessing filepath) st
        | Ok true => progress total_files i st
        | Ok false => progress total_files i (store hash_value filepath st)
        end
      else progress total_files i (store hash_value filepath st)
  end.

Fixpoint loop (total_files : nat) (files : list string) (i : nat)
         (st : state) : state :=
  match files with
  | [] => st
  | filepath :: rest =>
      loop total_files rest (S i) (iteration total_files st i filepath)
  end.

(** The whole call: the returned dictionary and what was logged. *)
Definition run_find_unique_images (files : list string) : state :=
  loop (List.length files) files 1 initial.

Definition find_unique_images (files : list string) : Dict.t :=
  unique_images (run_find_unique_images files).

(** The images of [files] that were fingerprinted. *)
Definition fingerprinted (filepath : string) : bool :=
  match average_hash filepath hash_size with
  | Hashed _ => true
  | _ => false
  end.

End FindUniqueImages.

(** ** The textual form of a fingerprint

    [imagehash.average_hash] yields [hash_size * hash_size] bits in row-major
    order, and [str] of it (the [hash_value] of [find_unique_images]) is
    imagehash's [_binary_array_to_hex]: the bits read as one binary numeral,
    printed in hexadecimal and padded with zeros on the left to
    [ceil(len / 4)] digits. *)

Definition fingerprint : Type := list bool.

(** [int(bit_string, 2)] *)
Definition int_of_bits (bits : fingerprint) : N :=
  fold_left (fun acc (b : bool) => (2 * acc + (if b then 1 else 0))%N) bits 0%N.

Definition hex_digit (n : N) : ascii :=
  nth (N.to_nat n)
      ["0"; "1"; "2"; "3"; "4"; "5"; "6"; "7";
       "8"; "9"; "a"; "b"; "c"; "d"; "e"; "f"]%char "0"%char.

(** ['{:0>{width}x}'.format(v)] for a [v] of at most [width] digits. *)
Fixpoint hex_padded (width : nat) (v : N) : string :=
  match width with
  | O => EmptyString
  | S w => hex_padded w (v / 16)%N ++ String (hex_digit (v mod 16)%N) EmptyString
  end.

Definition hex_of_bits (bits : fingerprint) : string :=
  hex_padded ((List.length bits + 3) / 4) (int_of_bits bits).

(** The Hamming distance of two bit vectors of one length. *)
Fixpoint hamming (a b : fingerprint) : nat :=
  match a, b with
  | x :: a', y :: b' => (if Bool.eqb x y then 0 else 1) + hamming a' b'
  | _, _ => 0
  end.

(** ** [os.path] on POSIX path strings *)

Module Path.

Definition sep : ascii := "/"%char.
Definition extsep : ascii := "."%char.

(** [p.rfind(c)], [-1] when [c] does not occur. *)
Fixpoint rfind_from (c : ascii) (p : string) (i last : Z) : Z :=
  match p with
  | EmptyString => last
  | String a rest =>
      rfind_from c rest (i + 1) (if Ascii.eqb a c then i else last)
  end.

Definition rfind (c : ascii) (p : string) : Z := rfind_from c p 0 (-1).

(** [p[:n]] and [p[n:]] for [n >= 0]. *)
Fixpoint take (n : nat) (p : string) : string :=
  match n, p with
  | S n', String a rest => String a (take n' rest)
  | _, _ => EmptyString
  end.

Fixpoint drop (n : nat) (p : string) : string :=
  match n, p with
  | S n', String _ rest => drop n' rest
  | _, _ => p
  end.

Definition startswith (c : ascii) (p : string) : bool :=
  match p with
  | String a _ => Ascii.eqb a c
  | EmptyString => false
  end.

Fixpoint endswith (c : ascii) (p : string) : bool :=
  match p with
  | EmptyString => false
  | String a EmptyString => Ascii.eqb a c
  | String _ rest => endswith c rest
  end.

(** [os.path.join(a, b)] *)
Definition join (a b : string) : string :=
  if startswith sep b then b
  else if (String.length a =? 0)%nat || endswith sep a then a ++ b
  else a ++ String sep b.

(** [os.path.basename(p)] *)
Definition basename (p : string) : string :=
  drop (Z.to_nat (rfind sep p + 1)) p.

(** Whether every character is the extension separator (the leading dots
    that [splitext] skips). *)
Fixpoint all_dots (p : string) : bool :=
  match p with
  | EmptyString => true
  | String a rest => Ascii.eqb a extsep && all_dots rest
  end.

(** [os.path.splitext(p)]: the extension starts at the last dot of the last
    component, unless only dots precede it there. *)
Definition splitext (p : string) : string * string :=
  let sepIndex := rfind sep p in
  let dotIndex := rfind extsep p in
  if (sepIndex <? dotIndex)%Z then
    let filenameIndex := Z.to_nat (sepIndex + 1) in
    if all_dots (drop filenameIndex (take (Z.to_nat dotIndex) p))
    then (p, EmptyString)
    else (take (Z.to_nat dotIndex) p, drop (Z.to_nat dotIndex) p)
  else (p, EmptyString).

(** [s.lower()] on ASCII. *)
Definition lower_char (a : ascii) : ascii :=
  let n := nat_of_ascii a in
  if (65 <=? n)%nat && (n <=? 90)%nat then ascii_of_nat (n + 32) else a.

Fixpoint lower (s : string) : string :=
  match s with
  | EmptyString => EmptyString
  | String a rest => String (lower_char a) (lower rest)
  end.

End Path.

(** [f"{counter}"] *)
Definition str_of_nat (n : nat) : string :=
  NilEmpty.string_of_uint (Nat.to_uint n).

(** ** The file system and the process *)

(** The paths that exist, files and directories alike, each in every
    spelling under which the run asks for it; [os.path.exists] looks the
    path up as it is spelled. *)
Definition filesystem : Type := list string.

Definition exists_in (fs : filesystem) (p : string) : bool :=
  existsb (String.eqb p) fs.

Definition add_path (p : string) (fs : filesystem) : filesystem :=
  if exists_in fs p then fs else fs ++ [p].

Definition remove_path (p : string) (fs : filesystem) : filesystem :=
  filter (fun q => negb (String.eqb p q)) fs.

(** The proper prefixes of [p] that end before a separator: the ancestors
    [os.makedirs] creates on the way. *)
Fixpoint ancestors_from (prefix rest : string) : list string :=
  match rest with
  | EmptyString => []
  | String a rest' =>
      (if Ascii.eqb a Path.sep && negb (String.length prefix =? 0)%nat
       then [prefix] else [])
      ++ ancestors_from (prefix ++ String a EmptyString) rest'
  end.

Definition ancestors (p : string) : list string :=
  ancestors_from EmptyString p.

Record world : Type := World {
  fs : filesystem;
  logged : list log_record
}.

(** How a piece of the program ends: it returns, it calls [sys.exit], an
    exception escapes it, or (for the bounded model of a [while]) the bound
    was reached. *)
Inductive outcome (A : Type) : Type :=
| Done (a : A)
| SysExit (code : Z)
| Uncaught
| OutOfFuel.

Arguments Done {A} a.
Arguments SysExit {A} code.
Arguments Uncaught {A}.
Arguments OutOfFuel {A}.

Definition M (A : Type) : Type := world -> outcome A * world.

Definition ret {A : Type} (a : A) : M A := fun w => (Done a, w).

Definition bind {A B : Type} (c : M A) (k : A -> M B) : M B :=
  fun w =>
    match c w with
    | (Done a, w') => k a w'
    | (SysExit code, w') => (SysExit code, w')
    | (Uncaught, w') => (Uncaught, w')
    | (OutOfFuel, w') => (OutOfFuel, w')
    end.

Notation "x <- c ;; k" := (bind c (fun x => k))
  (at level 61, c at next level, right associativity).
Notation "c ;; k" := (bind c (fun _ => k))
  (at level 61, right associativity).

(** [try: c  except Exception: handler]; [SystemExit] is not an
    [Exception] and passes through. *)
Definition try_except {A : Type} (c handler : M A) : M A :=
  fun w =>
    match c w with
    | (Uncaught, w') => handler w'
    | r => r
    end.

Definition logging (lvl : level) (msg : message) : M unit :=
  fun w => (Done tt, World (fs w) (logged w ++ [(lvl, msg)])).

Definition sys_exit {A : Type} (code : Z) : M A := fun w => (SysExit code, w).

Definition raise {A : Type} : M A := fun w => (Uncaught, w).

Definition out_of_fuel {A : Type} : M A := fun w => (OutOfFuel, w).

Definition os_path_exists (p : string) : M bool :=
  fun w => (Done (exists_in (fs w) p), w).

Definition get_fs : M filesystem := fun w => (Done (fs w), w).

Definition set_fs (f : filesystem -> filesystem) : M unit :=
  fun w => (Done tt, World (f (fs w)) (logged w)).

(** The exit status the operating system sees. *)
Definition exit_status {A : Type} (o : outcome A) : option Z :=
  match o with
  | Done _ => Some 0%Z
  | SysExit code => Some code
  | Uncaught => Some 1%Z
  | OutOfFuel => None
  end.

(** ** The program *)

(** [SUPPORTED_FORMATS] *)
Definition SUPPORTED_FORMATS : list string :=
  [".jpg"; ".jpeg"; ".png"; ".gif"; ".bmp"].

Definition supported (file : string) : bool :=
  existsb (String.eqb (snd (Path.splitext (Path.lower file))))
          SUPPORTED_FORMATS.

(** The parsed command line. *)
Record arguments : Type := Arguments_ {
  input_dir : string;
  output_dir : string;
  copy : bool;
  arg_hash_size : Z;
  arg_threshold : Z;
  debug : bool
}.

(** The conflict loop of [process_unique_files]:
    [while os.path.exists(dest_path): ...; counter += 1], bounded by [fuel]
    tests of the condition. *)
Fixpoint free_name (fuel : nat) (files : filesystem)
         (output_directory base ext : string) (counter : nat)
         (dest_path : string) : option string :=
  match fuel with
  | O => None
  | S fuel' =>
      if exists_in files dest_path then
        let new_filename := (base ++ "_" ++ str_of_nat counter ++ ext)%string in
        free_name fuel' files output_directory base ext (S counter)
                  (Path.join output_directory new_filename)
      else Some dest_path
  end.

(** Lines 137 to 147: the destination of [filepath]. *)
Definition destination (fuel : nat) (files : filesystem)
           (output_directory filepath : string) : option string :=
  let filename := Path.basename filepath in
  let dest_path := Path.join output_directory filename in
  if exists_in files dest_path then
    let (base, ext) := Path.splitext filename in
    free_name fuel files output_directory base ext 1 dest_path
  else Some dest_path.

(** A file system of [n] paths leaves the loop after at most [n + 2] tests:
    one of the destination, and one of each of the first [n + 1] candidate
    names, which cannot all exist. *)
Definition enough_fuel (files : filesystem) : nat :=
  S (S (List.length files)).

Section Program.

(** The environment: the decoder and hasher, the directory walk
    ([os.walk(directory)] as the [(root, files)] pairs it yields), whether
    creating a directory and whether opening the log file fails, the other
    spellings under which a path that is created exists for the program
    (with a trailing separator, through a link, ...), and the time stamp of
    the run. *)
Variable average_hash : string -> Z -> image_outcome.
Variable os_walk : filesystem -> string -> list (string * list string).
Variable mkdir_fails : string -> bool.
Variable open_fails : string -> bool.
Variable spellings : string -> list string.
Variable timestamp : string.

(** The paths come to exist, each under all its spellings. *)
Definition create (paths : list string) : M unit :=
  set_fs (fun files =>
            fold_left (fun acc q => add_path q acc)
                      (flat_map (fun q => q :: spellings q) paths) files).

(** [os.makedirs(p)] *)
Definition makedirs (p : string) : M unit :=
  if mkdir_fails p then raise
  else create (ancestors p ++ [p]).

Definition setup_logging (output_dir : string) : M unit :=
  e <- os_path_exists output_dir ;;
  (if negb e then makedirs output_dir else ret tt) ;;
  let log_file :=
    Path.join output_dir ("photo_dedup_" ++ timestamp ++ ".log")%string in
  (* logging.FileHandler(log_file) opens the file, or raises *)
  (if open_fails log_file then raise else create [log_file]) ;;
  logging INFO (LoggingTo log_file).

Definition scan_directory (directory : string) : M (list string) :=
  e <- os_path_exists directory ;;
  if negb e then
    logging ERROR (InputDirectoryMissing directory) ;;
    sys_exit 1
  else
    files <- get_fs ;;
    let image_files :=
      flat_map (fun entry : string * list string =>
                  let (root, names) := entry in
                  map (Path.join root) (filter supported names))
               (os_walk files directory) in
    (match image_files with
     | [] => logging WARNING (NoSupportedImages directory)
     | _ => ret tt
     end) ;;
    ret image_files.

(** [find_unique_images] inside a process: its records join the log. *)
Definition find_unique_images_M (files : list string)
           (hash_size threshold : Z) : M Dict.t :=
  fun w =>
    let st := run_find_unique_images average_hash hash_size threshold files in
    (Done (unique_images st), World (fs w) (logged w ++ log st)).

(** [shutil.copy2] or [shutil.move] to a path that does not exist. *)
Definition operation (copy : bool) (filepath dest_path : string) : M unit :=
  e <- os_path_exists filepath ;;
  if negb e then raise
  else if copy then set_fs (add_path dest_path)
  else set_fs (fun files => add_path dest_path (remove_path filepath files)).

(** One iteration of the loop of [process_unique_files]. *)
Definition place (copy : bool) (output_directory : string)
           (total_files i : nat) (entry : string * string) : M unit :=
  let (hash_value, filepath) := entry in
  try_except
    (files <- get_fs ;;
     match destination (enough_fuel files) files output_directory filepath with
     | None => out_of_fuel
     | Some dest_path =>
         operation copy filepath dest_path ;;
         logging INFO (Placing i total_files filepath) ;;
         logging DEBUG (PlacedHash hash_value)
     end)
    (logging ERROR (ErrorPlacing filepath)).

Fixpoint place_all (copy : bool) (output_directory : string)
         (total_files i : nat) (entries : list (string * string)) : M unit :=
  match entries with
  | [] => ret tt
  | entry :: rest =>
      place copy output_directory total_files i entry ;;
      place_all copy output_directory total_files (S i) rest
  end.

Definition process_unique_files (filetable : Dict.t)
           (output_directory : string) (copy : bool) : M unit :=
  e <- os_path_exists output_directory ;;
  (if negb e then
     try_except
       (makedirs output_directory ;;
        logging INFO (CreatedOutputDirectory output_directory))
       (logging ERROR ErrorCreatingOutputDirectory ;;
        sys_exit 1)
   else ret tt) ;;
  place_all copy output_directory (Dict.len filetable) 1 filetable.

Definition main (args : arguments) : M unit :=
  (* Set up logging first *)
  setup_logging (output_dir args) ;;
  if (arg_threshold args <? 0)%Z || (100 <? arg_threshold args)%Z then
    logging ERROR ThresholdOutOfRange ;;
    sys_exit 1
  else
    logging INFO Starting ;;
    logging INFO (InputDirectory (input_dir args)) ;;
    logging INFO (OutputDirectory (output_dir args)) ;;
    logging INFO (Options (copy args) (arg_hash_size args)
                          (arg_threshold args) (debug args)) ;;
    files <- scan_directory (input_dir args) ;;
    unique_files <- find_unique_images_M files (arg_hash_size args)
                                         (arg_threshold args) ;;
    process_unique_files unique_files (output_dir args) (copy args) ;;
    logging INFO (Found (Dict.len unique_files) (List.length files)).

End Program.

(** ** Vocabulary of the properties *)

Section Vocabulary.

Variable average_hash : string -> Z -> image_outcome.
Variable hash_size : Z.

(** [filepath] was fingerprinted, and to [hash_value]. *)
Definition has_hash (hash_value filepath : string) : bool :=
  match average_hash filepath hash_size with
  | Hashed h => String.eqb h hash_value
  | _ => false
  end.

(** The first and the last file of [files], in processing order, with the
    fingerprint [hash_value]. *)
Definition first_with_hash (hash_value : string) (files : list string)
  : option string :=
  find (has_hash hash_value) files.

Definition last_with_hash (hash_value : string) (files : list string)
  : option string :=
  find (has_hash hash_value) (List.rev files).

(** [filepath] is not an image PIL can identify. *)
Definition undecodable (filepath : string) : bool :=
  match average_hash filepath hash_size with
  | UnidentifiedImageError => true
  | _ => false
  end.

(** The representatives accepted when the first [n] files of a run over
    [files] have been processed. *)
Definition accepted_after (threshold : Z) (files : list string) (n : nat)
  : Dict.t :=
  unique_images
    (loop average_hash hash_size threshold (List.length files)
          (firstn n files) 1 initial).

End Vocabulary.

(** The score of two hashes reaches the threshold, or is defined and below
    it. *)
Definition reaches_threshold (threshold : Z) (hash1 hash2 : string) : Prop :=
  exists s, _calculate_similarity hash1 hash2 = Ok s /\
            (inject_Z threshold <= s)%Q.

Definition below_threshold (threshold : Z) (hash1 hash2 : string) : Prop :=
  exists s, _calculate_similarity hash1 hash2 = Ok s /\
            (s < inject_Z threshold)%Q.

Definition mutually_dissimilar (threshold : Z) (hashes : list string) : Prop :=
  forall hash1 hash2,
    In hash1 hashes -> In hash2 hashes -> hash1 <> hash2 ->
    below_threshold threshold hash1 hash2.

(** The fingerprints of the files that were fingerprinted, in processing
    order, and a list reduced to the first occurrence of each element. *)
Definition fingerprints_of (average_hash : string -> Z -> image_outcome)
           (hash_size : Z) (files : list string) : list string :=
  flat_map (fun filepath =>
              match average_hash filepath hash_size with
              | Hashed h => [h]
              | _ => []
              end) files.

Definition first_occurrences (l : list string) : list string :=
  fold_left (fun seen h => if existsb (String.eqb h) seen then seen
                           else seen ++ [h]) l [].

(** Whether the character occurs in the string. *)
Fixpoint contains (c : ascii) (s : string) : bool :=
  match s with
  | EmptyString => false
  | String a rest => Ascii.eqb a c || contains c rest
  end.

(** The list [scan_directory] builds from the walk of a directory. *)
Definition scanned (os_walk : filesystem -> string -> list (string * list string))
           (files : filesystem) (directory : string) : list string :=
  flat_map (fun entry : string * list string =>
              let (root, names) := entry in
              map (Path.join root) (filter supported names))
           (os_walk files directory).

(** The conditions of [main] on its arguments. *)
Definition threshold_in_range (threshold : Z) : bool :=
  negb ((threshold <? 0)%Z || (100 <? threshold)%Z).

(** The candidate name the conflict loop tries for [counter]. *)
Definition candidate (output_directory base ext : string) (counter : nat)
  : string :=
  Path.join output_directory (base ++ "_" ++ str_of_nat counter ++ ext)%string.

(** The similarity of two fingerprints as percentage of agreeing bits. *)
Definition bit_similarity (a b : fingerprint) : Q :=
  (100 - inject_Z (Z.of_nat (hamming a b) * 100)
         / inject_Z (Z.of_nat (List.length a)))%Q.

(** ** A sample environment

    A directory of five files: two images with one fingerprint, two images
    whose fingerprints differ from it in one bit and in every bit, and a
    file that is no image.  Any other path fails with another exception, as
    a file does that is missing or whose pixel data does not load. *)

Definition sample_hash (filepath : string) (hash_size : Z) : image_outcome :=
  if String.eqb filepath "in/a.jpg" then Hashed "ffffffffffffffff"
  else if String.eqb filepath "in/b.jpg" then Hashed "ffffffffffffffff"
  else if String.eqb filepath "in/c.jpg" then Hashed "fffffffffffffffe"
  else if String.eqb filepath "in/d.jpg" then Hashed "0000000000000000"
  else if String.eqb filepath "in/corrupt.jpg" then UnidentifiedImageError
  else OtherException.

Definition sample_files : filesystem :=
  ["in"; "in/a.jpg"; "in/b.jpg"; "in/c.jpg"; "in/d.jpg"; "in/corrupt.jpg"].

Definition sample_walk (files : filesystem) (directory : string)
  : list (string * list string) :=
  if String.eqb directory "in"
  then [("in", ["a.jpg"; "b.jpg"; "c.jpg"; "d.jpg"; "corrupt.jpg"])]
  else [].

Definition mkdir_succeeds (p : string) : bool := false.

Definition open_succeeds (p : string) : bool := false.

Definition open_refused (p : string) : bool := true.

(** An environment in which the run asks for no path under a second
    spelling, and one in which a directory is also asked for with a trailing
    separator. *)
Definition one_spelling (p : string) : list string := [].

Definition with_trailing_separator (p : string) : list string :=
  [(p ++ "/")%string].

Definition sample_timestamp : string := "20240101_120000".

(** * Properties *)

(** ** Strings *)

Lemma string_eqb_refl (s : string) : String.eqb s s = true.
Proof. apply String.eqb_eq. reflexivity. Qed.

Lemma append_length (a b : string) :
  String.length (a ++ b) = String.length a + String.length b.
Proof. induction a as [|c a IH]; simpl; [reflexivity | now rewrite IH]. Qed.

Lemma append_associative (a b c : string) :
  ((a ++ b) ++ c = a ++ b ++ c)%string.
Proof. induction a as [|x a IH]; simpl; [reflexivity | now rewrite IH]. Qed.

Lemma append_inv_head (p a b : string) : (p ++ a = p ++ b)%string -> a = b.
Proof.
  induction p as [|c p IH]; simpl; intros H; [exact H|].
  injection H as H. auto.
Qed.

Lemma append_inv_tail (a b e : string) : (a ++ e = b ++ e)%string -> a = b.
Proof.
  revert b. induction a as [|c a IH]; intros [|d b] H; simpl in H.
  - reflexivity.
  - apply (f_equal String.length) in H. simpl in H.
    rewrite append_length in H. lia.
  - apply (f_equal String.length) in H. simpl in H.
    rewrite append_length in H. lia.
  - injection H as -> H. f_equal. auto.
Qed.

(** ** Similarity *)

Lemma diff_bits_sym (hash1 hash2 : string) :
  diff_bits hash1 hash2 = diff_bits hash2 hash1.
Proof.
  revert hash2. induction hash1 as [|a r IH]; intros [|b s]; simpl; auto.
  rewrite (Ascii.eqb_sym a b), IH. reflexivity.
Qed.

Lemma diff_bits_refl (h : string) : diff_bits h h = 0.
Proof.
  induction h as [|a r IH]; simpl; [reflexivity|].
  rewrite Ascii.eqb_refl. exact IH.
Qed.

Lemma calculate_similarity_sym (hash1 hash2 : string) :
  _calculate_similarity hash1 hash2 = _calculate_similarity hash2 hash1.
Proof.
  unfold _calculate_similarity.
  rewrite (Nat.eqb_sym (String.length hash2)).
  destruct (String.length hash1 =? String.length hash2)%nat eqn:E; simpl;
    [|reflexivity].
  apply Nat.eqb_eq in E. rewrite <- E, diff_bits_sym. reflexivity.
Qed.

(** What the function computes on two strings of one positive length: the
    percentage of the positions at which they carry the same character. *)
Lemma calculate_similarity_positions (hash1 hash2 : string) :
  String.length hash1 = String.length hash2 ->
  hash1 <> EmptyString ->
  _calculate_similarity hash1 hash2 =
  Ok (100 - inject_Z (Z.of_nat (diff_bits hash1 hash2) * 100)
            / inject_Z (Z.of_nat (String.length hash1)))%Q.
Proof.
  intros L N. unfold _calculate_similarity.
  rewrite L, Nat.eqb_refl. simpl. rewrite <- L.
  destruct hash1; [contradiction | reflexivity].
Qed.

Lemma calculate_similarity_self (h : string) :
  h <> EmptyString ->
  exists s, _calculate_similarity h h = Ok s /\ (s == 100)%Q.
Proof.
  intros N. rewrite calculate_similarity_positions by auto.
  eexists; split; [reflexivity|].
  rewrite diff_bits_refl. simpl. unfold Qdiv. rewrite Qmult_0_l. ring.
Qed.

Lemma calculate_similarity_defined (hash1 hash2 : string) :
  hash1 <> EmptyString ->
  exists s, _calculate_similarity hash1 hash2 = Ok s.
Proof.
  intros N. unfold _calculate_similarity.
  destruct (negb _); [eauto|].
  destruct hash1; [contradiction|]. simpl. eauto.
Qed.

Lemma calculate_similarity_unequal (hash1 hash2 : string) :
  String.length hash1 <> String.length hash2 ->
  _calculate_similarity hash1 hash2 = Ok 0%Q.
Proof.
  intros L. unfold _calculate_similarity.
  apply Nat.eqb_neq in L. rewrite L. reflexivity.
Qed.

Lemma similar_enough_unequal (threshold : Z) (hash1 hash2 : string) :
  (0 < threshold)%Z ->
  String.length hash1 <> String.length hash2 ->
  similar_enough threshold hash1 hash2 = Ok false.
Proof.
  intros T L. unfold similar_enough.
  rewrite calculate_similarity_unequal by exact L. f_equal.
  destruct (Qle_bool (inject_Z threshold) 0) eqn:E; [|reflexivity].
  apply Qle_bool_iff in E. change 0%Q with (inject_Z 0) in E.
  rewrite <- Zle_Qle in E. lia.
Qed.

Lemma is_similar_false_intro (threshold : Z) (h : string)
      (existing : list string) :
  (forall k, In k existing -> similar_enough threshold h k = Ok false) ->
  is_similar threshold h existing = Ok false.
Proof.
  induction existing as [|k rest IH]; simpl; intros H; [reflexivity|].
  rewrite (H k) by auto. apply IH. intros; apply H; auto.
Qed.

Lemma is_similar_false_elim (threshold : Z) (h : string)
      (existing : list string) :
  is_similar threshold h existing = Ok false ->
  forall k, In k existing -> similar_enough threshold h k = Ok false.
Proof.
  induction existing as [|k0 rest IH]; simpl; intros H k Hin; [contradiction|].
  destruct (similar_enough threshold h k0) as [[|]|] eqn:E; try discriminate.
  destruct Hin as [<-|Hin]; auto.
Qed.

Lemma is_similar_true_elim (threshold : Z) (h : string)
      (existing : list string) :
  is_similar threshold h existing = Ok true ->
  exists k, In k existing /\ similar_enough threshold h k = Ok true.
Proof.
  induction existing as [|k0 rest IH]; simpl; intros H; [discriminate|].
  destruct (similar_enough threshold h k0) as [[|]|] eqn:E; try discriminate.
  - exists k0; auto.
  - destruct (IH H) as (k & Hin & Hk). exists k; auto.
Qed.

Lemma similar_enough_defined (threshold : Z) (h k : string) :
  h <> EmptyString ->
  exists b, similar_enough threshold h k = Ok b.
Proof.
  intros N. unfold similar_enough.
  destruct (calculate_similarity_defined h k N) as (s & ->). eauto.
Qed.

Lemma is_similar_true_intro (threshold : Z) (h : string)
      (existing : list string) :
  h <> EmptyString ->
  (exists k, In k existing /\ similar_enough threshold h k = Ok true) ->
  is_similar threshold h existing = Ok true.
Proof.
  intros N. induction existing as [|k0 rest IH]; simpl.
  - intros (k & [] & _).
  - intros (k & Hin & Hk).
    destruct (similar_enough_defined threshold h k0 N) as ([|] & E);
      rewrite E; [reflexivity|].
    destruct Hin as [->|Hin]; [congruence|]. apply IH. eauto.
Qed.

Lemma is_similar_defined (threshold : Z) (h : string)
      (existing : list string) :
  h <> EmptyString ->
  exists b, is_similar threshold h existing = Ok b.
Proof.
  intros N. induction existing as [|k0 rest IH]; simpl; [eauto|].
  destruct (similar_enough_defined threshold h k0 N) as ([|] & ->); eauto.
Qed.

(** C5: two hashes of unequal length get the similarity 0.0 and no
    exception, and 0.0 is below every threshold of the near-duplicate mode:
    the comparison never makes the image a duplicate, and an image whose hash
    has a length of its own is stored. *)
Theorem unequal_lengths_zero_similarity
        (hash1 hash2 : string)
        (L : String.length hash1 <> String.length hash2) :
  _calculate_similarity hash1 hash2 = Ok 0%Q /\
  forall threshold : Z, (0 < threshold)%Z ->
    similar_enough threshold hash1 hash2 = Ok false /\
    forall average_hash hash_size total_files st i filepath,
      average_hash filepath hash_size = Hashed hash1 ->
      (forall k, In k (Dict.keys (unique_images st)) ->
                 String.length hash1 <> String.length k) ->
      unique_images
        (iteration average_hash hash_size threshold total_files st i filepath)
      = Dict.set (unique_images st) hash1 filepath.
Proof.
  split; [apply calculate_similarity_unequal; exact L|].
  intros threshold T. split; [apply similar_enough_unequal; assumption|].
  intros average_hash hash_size total_files st i filepath Hh Hk.
  unfold iteration. rewrite Hh.
  apply Z.ltb_lt in T. rewrite T.
  rewrite is_similar_false_intro.
  - unfold progress. destruct (_ =? 0)%nat; reflexivity.
  - intros k Hin. apply similar_enough_unequal; [apply Z.ltb_lt; exact T|auto].
Qed.

Lemma unequal_lengths_zero_similarity_witness :
  _calculate_similarity "ff" "ff00" = Ok 0%Q /\
  similar_enough 1 "ff" "ff00" = Ok false.
Proof.
  assert (L : String.length "ff" <> String.length "ff00")
    by (simpl; discriminate).
  pose proof (unequal_lengths_zero_similarity "ff" "ff00" L) as [H0 H1].
  split; [exact H0|].
  exact (proj1 (H1 1%Z eq_refl)).
Defined.

(** C3: on the hash strings the program compares, the score is not the
    percentage of agreeing bits.  Two 64-bit fingerprints that differ in one
    bit are printed as two strings of 16 hexadecimal digits that differ in
    one digit, and the function, which pairs characters, answers
    100 - 1*100/16 = 93.75 where the bits give 100 - 1*100/64 = 98.4375. *)
Theorem similarity_pairs_hex_digits_not_bits :
  let a := repeat false 64 in
  let b := repeat false 63 ++ [true] in
  List.length a = 64 /\ List.length b = 64 /\ hamming a b = 1 /\
  hex_of_bits a = "0000000000000000" /\
  hex_of_bits b = "0000000000000001" /\
  exists s, _calculate_similarity (hex_of_bits a) (hex_of_bits b) = Ok s /\
            (s == 375 # 4)%Q /\
            (bit_similarity a b == 1575 # 16)%Q /\
            ~ (s == bit_similarity a b)%Q.
Proof.
  cbv zeta. repeat (split; [reflexivity|]).
  eexists; split; [vm_compute; reflexivity|].
  repeat split; try reflexivity.
  intros H. vm_compute in H. discriminate.
Qed.

(** ** Dictionaries *)

Lemma keys_app (d e : Dict.t) : Dict.keys (d ++ e) = Dict.keys d ++ Dict.keys e.
Proof. apply map_app. Qed.

Lemma set_present (d : Dict.t) (k v : string) :
  In k (Dict.keys d) -> Dict.keys (Dict.set d k v) = Dict.keys d.
Proof.
  induction d as [|[k' v'] rest IH]; simpl; intros H; [contradiction|].
  destruct (String.eqb k' k) eqn:E; simpl; [reflexivity|].
  f_equal. apply IH. destruct H as [H|H]; [|exact H].
  apply String.eqb_neq in E. contradiction.
Qed.

Lemma set_absent (d : Dict.t) (k v : string) :
  ~ In k (Dict.keys d) -> Dict.set d k v = d ++ [(k, v)].
Proof.
  induction d as [|[k' v'] rest IH]; simpl; intros H; [reflexivity|].
  destruct (String.eqb k' k) eqn:E.
  - apply String.eqb_eq in E. tauto.
  - f_equal. apply IH. tauto.
Qed.

Lemma get_set_same (d : Dict.t) (k v : string) :
  Dict.get (Dict.set d k v) k = Some v.
Proof.
  induction d as [|[k' v'] rest IH]; simpl.
  - now rewrite string_eqb_refl.
  - destruct (String.eqb k' k) eqn:E; simpl; rewrite E; auto.
Qed.

Lemma get_set_other (d : Dict.t) (k v k0 : string) :
  k0 <> k -> Dict.get (Dict.set d k v) k0 = Dict.get d k0.
Proof.
  intros N. induction d as [|[k' v'] rest IH]; simpl.
  - apply String.eqb_neq in N. rewrite String.eqb_sym, N. reflexivity.
  - destruct (String.eqb k' k) eqn:E; simpl.
    + apply String.eqb_eq in E. subst k'.
      assert (F : String.eqb k k0 = false)
        by (apply String.eqb_neq; congruence).
      rewrite F. reflexivity.
    + destruct (String.eqb k' k0); auto.
Qed.

Lemma get_absent (d : Dict.t) (k : string) :
  ~ In k (Dict.keys d) -> Dict.get d k = None.
Proof.
  induction d as [|[k' v'] rest IH]; simpl; intros H; [reflexivity|].
  destruct (String.eqb k' k) eqn:E.
  - apply String.eqb_eq in E. tauto.
  - apply IH. tauto.
Qed.

Lemma keys_set_cases (d : Dict.t) (k v : string) :
  Dict.keys (Dict.set d k v) = Dict.keys d /\ In k (Dict.keys d) \/
  Dict.set d k v = d ++ [(k, v)] /\ ~ In k (Dict.keys d).
Proof.
  destruct (in_dec string_dec k (Dict.keys d)) as [H|H].
  - left. split; [apply set_present|]; exact H.
  - right. split; [apply set_absent|]; exact H.
Qed.

Lemma set_nodup (d : Dict.t) (k v : string) :
  NoDup (Dict.keys d) -> NoDup (Dict.keys (Dict.set d k v)).
Proof.
  intros N. destruct (keys_set_cases d k v) as [[-> _]|[-> H]]; [exact N|].
  rewrite keys_app. simpl.
  apply NoDup_app; [exact N | constructor; [intros []|constructor] |].
  intros x Hx [<-|[]]. contradiction.
Qed.

Lemma set_len (d : Dict.t) (k v : string) :
  Dict.len d <= Dict.len (Dict.set d k v) <= S (Dict.len d).
Proof.
  unfold Dict.len.
  induction d as [|[k' v'] rest IH]; simpl; [lia|].
  destruct (String.eqb k' k); simpl; lia.
Qed.

Lemma set_len_positive (d : Dict.t) (k v : string) :
  1 <= Dict.len (Dict.set d k v).
Proof.
  unfold Dict.len. destruct d as [|[k' v'] rest]; simpl; [lia|].
  destruct (String.eqb k' k); simpl; lia.
Qed.

(** ** The loop of [find_unique_images] *)

Section Loop.

Variable average_hash : string -> Z -> image_outcome.
Variable hash_size : Z.
Variable threshold : Z.

Local Abbreviation step := (iteration average_hash hash_size threshold).
Local Abbreviation run_loop := (loop average_hash hash_size threshold).
Local Abbreviation is_fingerprinted := (fingerprinted average_hash hash_size).

Lemma progress_unique_images (total_files i : nat) (st : state) :
  unique_images (progress total_files i st) = unique_images st.
Proof. unfold progress. destruct (_ =? 0)%nat; reflexivity. Qed.

Lemma loop_app (total_files : nat) (l1 l2 : list string) (i : nat)
      (st : state) :
  run_loop total_files (l1 ++ l2) i st =
  run_loop total_files l2 (i + List.length l1) (run_loop total_files l1 i st).
Proof.
  revert i st. induction l1 as [|f l1 IH]; intros i st; simpl.
  - now rewrite Nat.add_0_r.
  - rewrite IH. f_equal. lia.
Qed.

Lemma loop_snoc (total_files : nat) (l : list string) (f : string) (i : nat)
      (st : state) :
  run_loop total_files (l ++ [f]) i st =
  step total_files (run_loop total_files l i st) (i + List.length l) f.
Proof. rewrite loop_app. reflexivity. Qed.

(** What an iteration does to the dictionary: nothing, or one assignment of
    the file to its hash. *)
Lemma iteration_cases (total_files : nat) (st : state) (i : nat)
      (filepath : string) :
  unique_images (step total_files st i filepath) = unique_images st \/
  exists h, average_hash filepath hash_size = Hashed h /\
            unique_images (step total_files st i filepath) =
            Dict.set (unique_images st) h filepath /\
            ((0 < threshold)%Z ->
             is_similar threshold h (Dict.keys (unique_images st)) = Ok false).
Proof.
  unfold iteration.
  destruct (average_hash filepath hash_size) as [h| |]; auto.
  destruct (0 <? threshold)%Z eqn:T.
  - destruct (is_similar threshold h _) as [[|]|] eqn:E;
      rewrite ?progress_unique_images; auto.
    right. exists h. simpl. auto.
  - right. exists h. rewrite progress_unique_images. simpl.
    repeat split. intros T'. apply Z.ltb_lt in T'. congruence.
Qed.

Lemma iteration_len (total_files : nat) (st : state) (i : nat)
      (filepath : string) :
  Dict.len (unique_images st)
  <= Dict.len (unique_images (step total_files st i filepath))
  <= Dict.len (unique_images st)
     + (if is_fingerprinted filepath then 1 else 0).
Proof.
  destruct (iteration_cases total_files st i filepath) as [->|(h & Hh & -> & _)].
  - lia.
  - unfold fingerprinted. rewrite Hh.
    pose proof (set_len (unique_images st) h filepath). lia.
Qed.

Lemma iteration_fingerprinted (total_files : nat) (st : state) (i : nat)
      (filepath : string) :
  is_fingerprinted filepath = true ->
  1 <= Dict.len (unique_images (step total_files st i filepath)).
Proof.
  unfold fingerprinted, iteration.
  destruct (average_hash filepath hash_size) as [h| |]; try discriminate.
  intros _.
  destruct (0 <? threshold)%Z;
    [|rewrite progress_unique_images; apply set_len_positive].
  destruct (unique_images st) as [|[k v] rest] eqn:D.
  - simpl. rewrite progress_unique_images. simpl. rewrite D. simpl.
    unfold Dict.len. simpl. lia.
  - destruct (is_similar threshold h _) as [[|]|];
      rewrite ?progress_unique_images; simpl; rewrite ?D;
      try apply set_len_positive; unfold Dict.len; simpl; lia.
Qed.

Lemma loop_len_upper (total_files : nat) (files : list string) (i : nat)
      (st : state) :
  Dict.len (unique_images (run_loop total_files files i st))
  <= Dict.len (unique_images st) + List.length (filter is_fingerprinted files).
Proof.
  revert i st. induction files as [|f files IH]; intros i st; simpl; [lia|].
  specialize (IH (S i) (step total_files st i f)).
  pose proof (iteration_len total_files st i f) as B.
  destruct (is_fingerprinted f); simpl; lia.
Qed.

Lemma loop_len_mono (total_files : nat) (files : list string) (i : nat)
      (st : state) :
  Dict.len (unique_images st)
  <= Dict.len (unique_images (run_loop total_files files i st)).
Proof.
  revert i st. induction files as [|f files IH]; intros i st; simpl; [lia|].
  specialize (IH (S i) (step total_files st i f)).
  pose proof (iteration_len total_files st i f). lia.
Qed.

Lemma loop_len_lower (total_files : nat) (files : list string) (i : nat)
      (st : state) :
  1 <= List.length (filter is_fingerprinted files) ->
  1 <= Dict.len (unique_images (run_loop total_files files i st)).
Proof.
  revert i st. induction files as [|f files IH]; intros i st; simpl; [lia|].
  destruct (is_fingerprinted f) eqn:F.
  - intros _. pose proof (iteration_fingerprinted total_files st i f F).
    pose proof (loop_len_mono total_files files (S i)
                              (step total_files st i f)). lia.
  - apply IH.
Qed.

End Loop.

(** C4: whatever the files and the threshold, there are at most as many
    representatives as fingerprinted images, at least one as soon as one
    image was fingerprinted, and the one image of a one-image input is the
    one representative. *)
Theorem representatives_bounded
        (average_hash : string -> Z -> image_outcome)
        (hash_size threshold : Z) (files : list string) :
  let fingerprinted_images :=
    filter (fingerprinted average_hash hash_size) files in
  let representatives :=
    find_unique_images average_hash hash_size threshold files in
  Dict.len representatives <= List.length fingerprinted_images /\
  (1 <= List.length fingerprinted_images -> 1 <= Dict.len representatives) /\
  (forall filepath hash_value,
      files = [filepath] ->
      average_hash filepath hash_size = Hashed hash_value ->
      representatives = [(hash_value, filepath)]).
Proof.
  cbv zeta. unfold find_unique_images, run_find_unique_images.
  split; [|split].
  - apply (loop_len_upper average_hash hash_size threshold
                          (List.length files) files 1 initial).
  - apply loop_len_lower.
  - intros filepath hash_value -> Hh. simpl. unfold iteration. rewrite Hh.
    simpl. destruct (0 <? threshold)%Z; reflexivity.
Qed.

Lemma representatives_bounded_witness :
  1 <= Dict.len (find_unique_images sample_hash 8 90
                   ["in/corrupt.jpg"; "in/a.jpg"; "in/b.jpg"]) <= 2 /\
  find_unique_images sample_hash 8 90 ["in/a.jpg"]
  = [("ffffffffffffffff", "in/a.jpg")].
Proof.
  pose proof (representatives_bounded sample_hash 8 90
                ["in/corrupt.jpg"; "in/a.jpg"; "in/b.jpg"]) as H.
  cbv zeta in H. destruct H as (Upper & Lower & _).
  pose proof (representatives_bounded sample_hash 8 90 ["in/a.jpg"]) as H.
  cbv zeta in H. destruct H as (_ & _ & One).
  split.
  - split; [apply Lower; simpl; lia | exact Upper].
  - apply One; reflexivity.
Defined.

(** ** Exact mode *)

Section ExactMode.

Variable average_hash : string -> Z -> image_outcome.
Variable hash_size : Z.

Local Abbreviation step := (iteration average_hash hash_size).
Local Abbreviation run_loop := (loop average_hash hash_size).

Lemma iteration_nonpositive (threshold : Z) (total_files : nat) (st : state)
      (i : nat) (filepath : string) :
  (threshold <= 0)%Z ->
  step threshold total_files st i filepath = step 0 total_files st i filepath.
Proof.
  intros T. unfold iteration.
  assert (E : (0 <? threshold)%Z = false) by (apply Z.ltb_ge; exact T).
  rewrite E. reflexivity.
Qed.

Lemma loop_nonpositive (threshold : Z) (total_files : nat)
      (files : list string) (i : nat) (st : state) :
  (threshold <= 0)%Z ->
  run_loop threshold total_files files i st = run_loop 0 total_files files i st.
Proof.
  intros T. revert i st.
  induction files as [|f files IH]; intros i st; simpl; [reflexivity|].
  rewrite iteration_nonpositive by exact T. apply IH.
Qed.

(** In exact mode an iteration is the assignment of line 94, or nothing when
    the file was not fingerprinted. *)
Lemma exact_iteration (total_files : nat) (st : state) (i : nat)
      (filepath : string) :
  unique_images (step 0 total_files st i filepath) =
  match average_hash filepath hash_size with
  | Hashed h => Dict.set (unique_images st) h filepath
  | _ => unique_images st
  end.
Proof.
  unfold iteration.
  destruct (average_hash filepath hash_size); simpl; try reflexivity.
  apply progress_unique_images.
Qed.

Lemma exact_get (total_files : nat) (files : list string) (i : nat)
      (h : string) :
  Dict.get (unique_images (run_loop 0 total_files files i initial)) h =
  last_with_hash average_hash hash_size h files.
Proof.
  unfold last_with_hash. revert i.
  induction files as [|f files IH] using rev_ind; intros i; [reflexivity|].
  rewrite loop_snoc, rev_app_distr, exact_iteration. simpl.
  unfold has_hash at 1.
  destruct (average_hash f hash_size) as [h'| |]; try apply IH.
  destruct (String.eqb h' h) eqn:E.
  - apply String.eqb_eq in E. subst h'. apply get_set_same.
  - rewrite get_set_other; [apply IH|].
    apply String.eqb_neq in E. congruence.
Qed.

End ExactMode.

Lemma loop_nodup (average_hash : string -> Z -> image_outcome)
      (hash_size threshold : Z) (total_files : nat) (files : list string)
      (i : nat) (st : state) :
  NoDup (Dict.keys (unique_images st)) ->
  NoDup (Dict.keys (unique_images
    (loop average_hash hash_size threshold total_files files i st))).
Proof.
  revert i st. induction files as [|f files IH]; intros i st N; simpl; auto.
  apply IH.
  destruct (iteration_cases average_hash hash_size threshold total_files st i f)
    as [->|(h & _ & -> & _)]; [exact N|].
  apply set_nodup. exact N.
Qed.

Lemma get_some_in (d : Dict.t) (k v : string) :
  Dict.get d k = Some v -> In k (Dict.keys d).
Proof.
  intros H. destruct (in_dec string_dec k (Dict.keys d)) as [I|I]; auto.
  rewrite get_absent in H by exact I. discriminate.
Qed.

(** What the exact branch stores: the files with one fingerprint leave
    exactly one entry under that fingerprint, and the path it holds is the
    one of the last such file in processing order, each assignment of line
    94 replacing the path stored before. *)
Lemma exact_mode_stores_last
        (average_hash : string -> Z -> image_outcome) (hash_size : Z)
        (files : list string) (hash_value filepath : string)
        (H : last_with_hash average_hash hash_size hash_value files
             = Some filepath) :
  let representatives := find_unique_images average_hash hash_size 0 files in
  Dict.get representatives hash_value = Some filepath /\
  count_occ string_dec (Dict.keys representatives) hash_value = 1.
Proof.
  cbv zeta. unfold find_unique_images, run_find_unique_images.
  assert (G : Dict.get (unique_images (loop average_hash hash_size 0
                (List.length files) files 1 initial)) hash_value
              = Some filepath) by (rewrite exact_get; exact H).
  split; [exact G|].
  apply NoDup_count_occ'.
  - apply loop_nodup. constructor.
  - eapply get_some_in. exact G.
Qed.

(** Hence the first file of a fingerprint is not, in general, the one the
    exact branch returns. *)
Lemma exact_mode_does_not_keep_first :
  ~ (forall (average_hash : string -> Z -> image_outcome) (hash_size : Z)
            (files : list string) (hash_value filepath : string),
        first_with_hash average_hash hash_size hash_value files
        = Some filepath ->
        Dict.get (find_unique_images average_hash hash_size 0 files)
                 hash_value = Some filepath).
Proof.
  intros C.
  specialize (C sample_hash 8%Z ["in/a.jpg"; "in/b.jpg"]
                "ffffffffffffffff" "in/a.jpg" eq_refl).
  vm_compute in C. discriminate.
Qed.

(** C1: the exact branch does not keep the first of the files with one
    fingerprint.  Of two files with the same fingerprint the call with
    threshold 0 returns the second, line 94 assigning to the key again,
    where the other branch of the same [if] (lines 86 to 92), at threshold 1
    as at threshold 100, returns the first. *)
Theorem exact_mode_replaces_the_first_file :
  let files := ["in/a.jpg"; "in/b.jpg"] in
  let h := "ffffffffffffffff" in
  sample_hash "in/a.jpg" 8 = Hashed h /\
  sample_hash "in/b.jpg" 8 = Hashed h /\
  first_with_hash sample_hash 8 h files = Some "in/a.jpg" /\
  find_unique_images sample_hash 8 0 files = [(h, "in/b.jpg")] /\
  find_unique_images sample_hash 8 1 files = [(h, "in/a.jpg")] /\
  find_unique_images sample_hash 8 100 files = [(h, "in/a.jpg")].
Proof. cbv zeta. repeat split; vm_compute; reflexivity. Qed.

(** C10: a threshold that is zero or negative takes the [else] branch of line
    93 at every file, so the call returns the mapping (and logs the records)
    of threshold 0, whatever the files and the hash size. *)
Theorem nonpositive_threshold_is_exact_mode
        (average_hash : string -> Z -> image_outcome)
        (hash_size threshold : Z) (files : list string)
        (T : (threshold <= 0)%Z) :
  find_unique_images average_hash hash_size threshold files =
  find_unique_images average_hash hash_size 0 files /\
  run_find_unique_images average_hash hash_size threshold files =
  run_find_unique_images average_hash hash_size 0 files.
Proof.
  unfold find_unique_images, run_find_unique_images.
  rewrite loop_nonpositive by exact T. split; reflexivity.
Qed.

Lemma nonpositive_threshold_is_exact_mode_witness :
  find_unique_images sample_hash 8 (-5)
    ["in/a.jpg"; "in/b.jpg"; "in/c.jpg"] =
  find_unique_images sample_hash 8 0
    ["in/a.jpg"; "in/b.jpg"; "in/c.jpg"].
Proof.
  refine (proj1 (nonpositive_threshold_is_exact_mode sample_hash 8 (-5)
                   ["in/a.jpg"; "in/b.jpg"; "in/c.jpg"] _)).
  lia.
Defined.

(** ** Near-duplicate mode *)

Lemma similar_enough_true (threshold : Z) (h k : string) :
  similar_enough threshold h k = Ok true <-> reaches_threshold threshold h k.
Proof.
  unfold similar_enough, reaches_threshold. split.
  - destruct (_calculate_similarity h k) as [s|]; [|discriminate].
    intros E. injection E as E. apply Qle_bool_iff in E. eauto.
  - intros (s & -> & E). apply Qle_bool_iff in E. now rewrite E.
Qed.

Lemma similar_enough_false (threshold : Z) (h k : string) :
  similar_enough threshold h k = Ok false <-> below_threshold threshold h k.
Proof.
  unfold similar_enough, below_threshold. split.
  - destruct (_calculate_similarity h k) as [s|]; [|discriminate].
    intros E. injection E as E. exists s. split; [reflexivity|].
    apply Qnot_le_lt. intros L. apply Qle_bool_iff in L. congruence.
  - intros (s & -> & E). f_equal.
    destruct (Qle_bool (inject_Z threshold) s) eqn:B; [|reflexivity].
    apply Qle_bool_iff in B. apply Qlt_not_le in E. contradiction.
Qed.

Lemma below_threshold_sym (threshold : Z) (h k : string) :
  below_threshold threshold h k -> below_threshold threshold k h.
Proof.
  unfold below_threshold. now rewrite (calculate_similarity_sym k h).
Qed.

Lemma reaches_not_below (threshold : Z) (h k : string) :
  reaches_threshold threshold h k -> below_threshold threshold h k -> False.
Proof.
  intros (s & E & L) (s' & E' & L'). rewrite E in E'. injection E' as <-.
  apply Qlt_not_le in L'. contradiction.
Qed.

(** Up to threshold 100 a hash that is among the representatives is never
    found dissimilar from all of them: it scores 100 against itself, or, when
    it is the empty string, the division of line 112 raises. *)
Lemma dissimilar_is_new (threshold : Z) (h : string) (existing : list string) :
  (threshold <= 100)%Z ->
  is_similar threshold h existing = Ok false ->
  ~ In h existing.
Proof.
  intros T E Hin.
  pose proof (is_similar_false_elim threshold h existing E h Hin) as F.
  destruct h as [|c h].
  - discriminate.
  - apply similar_enough_false in F.
    destruct (calculate_similarity_self (String c h)) as (s & Es & E100);
      [discriminate|].
    apply (reaches_not_below threshold (String c h) (String c h)); [|exact F].
    exists s. split; [exact Es|]. rewrite E100.
    change 100%Q with (inject_Z 100). rewrite <- Zle_Qle. exact T.
Qed.

Section NearDuplicateMode.

Variable average_hash : string -> Z -> image_outcome.
Variable hash_size : Z.
Variable threshold : Z.
Hypothesis near_duplicate_mode : (0 < threshold)%Z.

Local Abbreviation step := (iteration average_hash hash_size threshold).
Local Abbreviation run_loop := (loop average_hash hash_size threshold).

Lemma near_iteration (total_files : nat) (st : state) (i : nat)
      (filepath h : string) :
  average_hash filepath hash_size = Hashed h ->
  unique_images (step total_files st i filepath) =
  match is_similar threshold h (Dict.keys (unique_images st)) with
  | Ok false => Dict.set (unique_images st) h filepath
  | _ => unique_images st
  end.
Proof.
  intros Hh. unfold iteration. rewrite Hh.
  apply Z.ltb_lt in near_duplicate_mode. rewrite near_duplicate_mode.
  destruct (is_similar threshold h _) as [[|]|];
    rewrite ?progress_unique_images; reflexivity.
Qed.

Lemma iteration_dissimilar (total_files : nat) (st : state) (i : nat)
      (filepath : string) :
  mutually_dissimilar threshold (Dict.keys (unique_images st)) ->
  mutually_dissimilar threshold
    (Dict.keys (unique_images (step total_files st i filepath))).
Proof.
  intros I.
  destruct (iteration_cases average_hash hash_size threshold total_files
                            st i filepath) as [->|(h & _ & -> & S)];
    [exact I|].
  specialize (S near_duplicate_mode).
  destruct (keys_set_cases (unique_images st) h filepath)
    as [[-> _]|[-> _]]; [exact I|].
  rewrite keys_app. simpl. intros h1 h2 H1 H2 N.
  apply in_app_or in H1. apply in_app_or in H2. simpl in H1, H2.
  destruct H1 as [H1|[<-|[]]], H2 as [H2|[<-|[]]].
  - apply I; assumption.
  - apply below_threshold_sym, similar_enough_false.
    eapply is_similar_false_elim; eassumption.
  - apply similar_enough_false.
    eapply is_similar_false_elim; eassumption.
  - contradiction.
Qed.

Lemma loop_dissimilar (total_files : nat) (files : list string) (i : nat)
      (st : state) :
  mutually_dissimilar threshold (Dict.keys (unique_images st)) ->
  mutually_dissimilar threshold
    (Dict.keys (unique_images (run_loop total_files files i st))).
Proof.
  revert i st. induction files as [|f files IH]; intros i st I; simpl; auto.
  apply IH, iteration_dissimilar, I.
Qed.

(** Up to threshold 100 the dictionary only grows at its end. *)
Lemma loop_extends (total_files : nat) (files : list string) (i : nat)
      (st : state) :
  (threshold <= 100)%Z ->
  exists later,
    unique_images (run_loop total_files files i st) = unique_images st ++ later.
Proof.
  intros T. revert i st.
  induction files as [|f files IH]; intros i st; simpl.
  - exists []. now rewrite app_nil_r.
  - destruct (IH (S i) (step total_files st i f)) as (later & ->).
    destruct (iteration_cases average_hash hash_size threshold total_files
                              st i f) as [->|(h & _ & -> & S)];
      [eauto|].
    rewrite set_absent
      by (apply (dissimilar_is_new threshold); auto).
    rewrite <- app_assoc. eauto.
Qed.

End NearDuplicateMode.

(** C9: with a positive threshold any two different fingerprints among the
    returned representatives score strictly below the threshold against each
    other. *)
Theorem representatives_mutually_dissimilar
        (average_hash : string -> Z -> image_outcome)
        (hash_size threshold : Z) (files : list string)
        (T : (0 < threshold)%Z) :
  forall hash1 hash2 : string,
    In hash1 (Dict.keys (find_unique_images average_hash hash_size
                                            threshold files)) ->
    In hash2 (Dict.keys (find_unique_images average_hash hash_size
                                            threshold files)) ->
    hash1 <> hash2 ->
    exists s, _calculate_similarity hash1 hash2 = Ok s /\
              (s < inject_Z threshold)%Q.
Proof.
  apply (loop_dissimilar average_hash hash_size threshold T
                         (List.length files) files 1 initial).
  intros h1 h2 [].
Qed.

Lemma representatives_mutually_dissimilar_witness :
  exists s, _calculate_similarity "ffffffffffffffff" "0000000000000000" = Ok s
            /\ (s < inject_Z 90)%Q.
Proof.
  refine (representatives_mutually_dissimilar sample_hash 8 90
            ["in/a.jpg"; "in/b.jpg"; "in/c.jpg"; "in/d.jpg"] _
            "ffffffffffffffff" "0000000000000000" _ _ _).
  - lia.
  - vm_compute. auto.
  - vm_compute. auto.
  - discriminate.
Defined.

Lemma firstn_snoc (files : list string) (n : nat) (filepath : string) :
  nth_error files n = Some filepath ->
  firstn (S n) files = firstn n files ++ [filepath].
Proof.
  revert n. induction files as [|f files IH]; intros [|n] H;
    simpl in H; try discriminate.
  - injection H as ->. reflexivity.
  - simpl. f_equal. apply IH. exact H.
Qed.

(** C2: in near-duplicate mode the image at position [n] of the run is
    compared with the representatives accepted from the files before it.  It
    is discarded (the mapping stays as it was) when one of them scores the
    threshold or more against it; when every one of them scores below, line
    92 maps its fingerprint to it, which adds it at the end of the mapping
    whenever the fingerprint is not a key yet.  Up to threshold 100 that is
    always so: the image is discarded if and only if some representative
    reaches the threshold, it is appended otherwise, and what was accepted
    stays in the returned mapping.  The fingerprint is the hexadecimal string
    imagehash prints, which has at least one digit. *)
Theorem near_duplicate_decision
        (average_hash : string -> Z -> image_outcome)
        (hash_size threshold : Z) (files : list string) (n : nat)
        (filepath hash_value : string)
        (T : (0 < threshold)%Z)
        (P : nth_error files n = Some filepath)
        (F : average_hash filepath hash_size = Hashed hash_value)
        (N : hash_value <> EmptyString) :
  let before := accepted_after average_hash hash_size threshold files n in
  let after := accepted_after average_hash hash_size threshold files (S n) in
  let duplicate :=
    exists k, In k (Dict.keys before) /\
              reaches_threshold threshold hash_value k in
  let distinct :=
    forall k, In k (Dict.keys before) ->
              below_threshold threshold hash_value k in
  (duplicate \/ distinct) /\
  (duplicate -> after = before) /\
  (distinct ->
     after = Dict.set before hash_value filepath /\
     Dict.get after hash_value = Some filepath /\
     (~ In hash_value (Dict.keys before) ->
      after = before ++ [(hash_value, filepath)])) /\
  ((threshold <= 100)%Z ->
     (after = before <-> duplicate) /\
     (distinct -> after = before ++ [(hash_value, filepath)]) /\
     exists later,
       find_unique_images average_hash hash_size threshold files
       = after ++ later).
Proof.
  cbv zeta. unfold accepted_after.
  rewrite (firstn_snoc files n filepath P), loop_snoc.
  rewrite (near_iteration average_hash hash_size threshold T _ _ _ _ _ F).
  set (before := unique_images (loop average_hash hash_size threshold
                   (List.length files) (firstn n files) 1 initial)).
  assert (Dup : forall k, In k (Dict.keys before) ->
                          reaches_threshold threshold hash_value k ->
                is_similar threshold hash_value (Dict.keys before) = Ok true).
  { intros k Hin R. apply is_similar_true_intro; [exact N|].
    exists k. split; [exact Hin|]. apply similar_enough_true, R. }
  assert (Dis : (forall k, In k (Dict.keys before) ->
                           below_threshold threshold hash_value k) ->
                is_similar threshold hash_value (Dict.keys before) = Ok false).
  { intros D. apply is_similar_false_intro. intros k Hin.
    apply similar_enough_false, D, Hin. }
  assert (Cases : (exists k, In k (Dict.keys before) /\
                             reaches_threshold threshold hash_value k) \/
                  (forall k, In k (Dict.keys before) ->
                             below_threshold threshold hash_value k)).
  { destruct (is_similar_defined threshold hash_value (Dict.keys before) N)
      as ([|] & E).
    - left. destruct (is_similar_true_elim _ _ _ E) as (k & Hin & S).
      exists k. split; [exact Hin|]. apply similar_enough_true, S.
    - right. intros k Hin. apply similar_enough_false.
      eapply is_similar_false_elim; eassumption. }
  split; [exact Cases|]. split; [|split].
  - intros (k & Hin & R). rewrite (Dup k Hin R). reflexivity.
  - intros D. rewrite (Dis D). split; [reflexivity|].
    split; [apply get_set_same | apply set_absent].
  - intros T100.
    assert (New : (forall k, In k (Dict.keys before) ->
                             below_threshold threshold hash_value k) ->
                  Dict.set before hash_value filepath
                  = before ++ [(hash_value, filepath)]).
    { intros D. apply set_absent.
      apply (dissimilar_is_new threshold); [exact T100 | exact (Dis D)]. }
    split; [|split].
    + split.
      * intros E. destruct Cases as [C|D]; [exact C|].
        rewrite (Dis D), (New D) in E.
        apply (f_equal (@List.length _)) in E.
        rewrite length_app in E. simpl in E. lia.
      * intros (k & Hin & R). rewrite (Dup k Hin R). reflexivity.
    + intros D. rewrite (Dis D). apply New, D.
    + unfold find_unique_images, run_find_unique_images.
      assert (Split : forall total_files,
                loop average_hash hash_size threshold total_files files 1
                     initial
                = loop average_hash hash_size threshold total_files
                    (skipn (S n) files)
                    (1 + List.length (firstn n files ++ [filepath]))
                    (iteration average_hash hash_size threshold total_files
                       (loop average_hash hash_size threshold total_files
                          (firstn n files) 1 initial)
                       (1 + List.length (firstn n files)) filepath)).
      { intros total_files.
        rewrite <- (firstn_skipn (S n) files) at 1.
        rewrite loop_app, (firstn_snoc files n filepath P), loop_snoc.
        reflexivity. }
      rewrite Split.
      destruct (loop_extends average_hash hash_size threshold T
                  (List.length files) (skipn (S n) files)
                  (1 + List.length (firstn n files ++ [filepath]))
                  (iteration average_hash hash_size threshold
                     (List.length files)
                     (loop average_hash hash_size threshold
                        (List.length files) (firstn n files) 1 initial)
                     (1 + List.length (firstn n files)) filepath) T100)
        as (later & ->).
      exists later. f_equal.
      apply (near_iteration average_hash hash_size threshold T _ _ _ _ _ F).
Qed.

Lemma near_duplicate_decision_witness :
  accepted_after sample_hash 8 90
    ["in/a.jpg"; "in/b.jpg"; "in/c.jpg"; "in/d.jpg"] 4
  = accepted_after sample_hash 8 90
      ["in/a.jpg"; "in/b.jpg"; "in/c.jpg"; "in/d.jpg"] 3
    ++ [("0000000000000000", "in/d.jpg")].
Proof.
  pose proof (near_duplicate_decision sample_hash 8 90
                ["in/a.jpg"; "in/b.jpg"; "in/c.jpg"; "in/d.jpg"] 3
                "in/d.jpg" "0000000000000000") as H.
  cbv zeta in H.
  destruct H as (_ & _ & _ & H);
    [lia | reflexivity | reflexivity | discriminate |].
  destruct H as (_ & H & _); [lia|].
  apply H. intros k Hin. apply similar_enough_false.
  vm_compute in Hin. destruct Hin as [<-|[]]. vm_compute. reflexivity.
Defined.

(** ** Files that cannot be decoded *)

Section Skipping.

Variable average_hash : string -> Z -> image_outcome.
Variable hash_size : Z.
Variable threshold : Z.

Local Abbreviation step := (iteration average_hash hash_size threshold).
Local Abbreviation run_loop := (loop average_hash hash_size threshold).
Local Abbreviation corrupt := (undecodable average_hash hash_size).

Lemma warnings_app (l1 l2 : list log_record) :
  warnings (l1 ++ l2) = warnings l1 ++ warnings l2.
Proof. apply filter_app. Qed.

Lemma progress_warnings (total_files i : nat) (st : state) :
  warnings (log (progress total_files i st)) = warnings (log st).
Proof.
  unfold progress. destruct (_ =? 0)%nat; [|reflexivity].
  simpl. rewrite warnings_app. simpl. apply app_nil_r.
Qed.

Lemma iteration_warnings (total_files : nat) (st : state) (i : nat)
      (filepath : string) :
  warnings (log (step total_files st i filepath)) =
  warnings (log st)
  ++ (if corrupt filepath then [(WARNING, SkippingCorrupted filepath)]
      else []).
Proof.
  unfold iteration, undecodable.
  destruct (average_hash filepath hash_size) as [h| |].
  - rewrite app_nil_r.
    destruct (0 <? threshold)%Z;
      [destruct (is_similar threshold h _) as [[|]|]|];
      rewrite ?progress_warnings; simpl; rewrite ?warnings_app; simpl;
      rewrite ?app_nil_r; reflexivity.
  - simpl. now rewrite warnings_app.
  - simpl. now rewrite warnings_app.
Qed.

Lemma loop_warnings (total_files : nat) (files : list string) (i : nat)
      (st : state) :
  warnings (log (run_loop total_files files i st)) =
  warnings (log st)
  ++ map (fun f => (WARNING, SkippingCorrupted f)) (filter corrupt files).
Proof.
  revert i st. induction files as [|f files IH]; intros i st; simpl.
  - now rewrite app_nil_r.
  - rewrite IH, iteration_warnings, <- app_assoc.
    destruct (corrupt f); reflexivity.
Qed.

(** The dictionary an iteration leaves depends on the dictionary it gets and
    on the file, not on the position or on the log. *)
Lemma iteration_congruence (total1 total2 : nat) (st1 st2 : state)
      (i1 i2 : nat) (filepath : string) :
  unique_images st1 = unique_images st2 ->
  unique_images (step total1 st1 i1 filepath) =
  unique_images (step total2 st2 i2 filepath).
Proof.
  intros E. unfold iteration.
  destruct (average_hash filepath hash_size) as [h| |]; simpl; auto.
  rewrite E.
  destruct (0 <? threshold)%Z;
    [destruct (is_similar threshold h _) as [[|]|]|];
    rewrite ?progress_unique_images; simpl; congruence.
Qed.

Lemma loop_congruence (total1 total2 : nat) (files : list string)
      (i1 i2 : nat) (st1 st2 : state) :
  unique_images st1 = unique_images st2 ->
  unique_images (run_loop total1 files i1 st1) =
  unique_images (run_loop total2 files i2 st2).
Proof.
  revert i1 i2 st1 st2.
  induction files as [|f files IH]; intros i1 i2 st1 st2 E; simpl; auto.
  apply IH, iteration_congruence, E.
Qed.

Lemma loop_skips (total1 total2 : nat) (before after : list string)
      (filepath : string) (i1 i2 : nat) (st : state) :
  fingerprinted average_hash hash_size filepath = false ->
  unique_images (run_loop total1 (before ++ filepath :: after) i1 st) =
  unique_images (run_loop total2 (before ++ after) i2 st).
Proof.
  intros U. rewrite !loop_app. simpl. apply loop_congruence.
  unfold iteration at 1. unfold fingerprinted in U.
  destruct (average_hash filepath hash_size); try discriminate;
    simpl; apply loop_congruence; reflexivity.
Qed.

(** Two fingerprinted images that are not duplicates of each other are two
    representatives. *)
Lemma two_distinct_images (a b ha hb : string) :
  average_hash a hash_size = Hashed ha ->
  average_hash b hash_size = Hashed hb ->
  ha <> hb ->
  ((0 < threshold)%Z -> below_threshold threshold hb ha) ->
  find_unique_images average_hash hash_size threshold [a; b]
  = [(ha, a); (hb, b)].
Proof.
  intros Ha Hb N D.
  assert (S : Dict.set [(ha, a)] hb b = [(ha, a); (hb, b)]).
  { simpl. apply String.eqb_neq in N. now rewrite N. }
  unfold find_unique_images, run_find_unique_images. simpl.
  destruct (Z.ltb_spec 0 threshold) as [T|T].
  - rewrite (near_iteration average_hash hash_size threshold T _ _ _ _ _ Hb).
    rewrite (near_iteration average_hash hash_size threshold T _ _ _ _ _ Ha).
    simpl. apply similar_enough_false in D; [|exact T]. rewrite D. exact S.
  - rewrite iteration_nonpositive, exact_iteration, Hb by exact T.
    rewrite iteration_nonpositive, exact_iteration, Ha by exact T.
    exact S.
Qed.

End Skipping.

(** C7, as the code has it: a file that cannot be opened or hashed costs
    one iteration that leaves the mapping alone and logs one record, a
    warning when PIL raises [UnidentifiedImageError] (line 101) and an error
    for any other exception (line 103); the run goes on and returns what it
    returns without the file, and its warnings are the files PIL could not
    identify, one each.  With such a file among two images that are not
    duplicates of each other the run ends with two representatives, and
    with one warning when the file is one PIL cannot identify, none
    otherwise. *)
Theorem failed_file_is_skipped_and_logged
        (average_hash : string -> Z -> image_outcome)
        (hash_size threshold : Z) (failed : string)
        (U : fingerprinted average_hash hash_size failed = false) :
  (forall total_files st i,
      iteration average_hash hash_size threshold total_files st i failed
      = State (unique_images st)
              (log st ++
               [if undecodable average_hash hash_size failed
                then (WARNING, SkippingCorrupted failed)
                else (ERROR, ErrorProcessing failed)])) /\
  (forall before after,
      find_unique_images average_hash hash_size threshold
                         (before ++ failed :: after)
      = find_unique_images average_hash hash_size threshold
                           (before ++ after)) /\
  (forall files,
      warnings (log (run_find_unique_images average_hash hash_size threshold
                                            files))
      = map (fun f => (WARNING, SkippingCorrupted f))
            (filter (undecodable average_hash hash_size) files)) /\
  (forall a b ha hb files,
      average_hash a hash_size = Hashed ha ->
      average_hash b hash_size = Hashed hb ->
      ha <> hb ->
      ((0 < threshold)%Z -> below_threshold threshold hb ha) ->
      In files [[failed; a; b]; [a; failed; b]; [a; b; failed]] ->
      Dict.len (find_unique_images average_hash hash_size threshold files) = 2
      /\ warnings (log (run_find_unique_images average_hash hash_size
                                               threshold files))
         = if undecodable average_hash hash_size failed
           then [(WARNING, SkippingCorrupted failed)]
           else []).
Proof.
  assert (Skip : forall before after,
      find_unique_images average_hash hash_size threshold
                         (before ++ failed :: after)
      = find_unique_images average_hash hash_size threshold
                           (before ++ after)).
  { intros before after. unfold find_unique_images, run_find_unique_images.
    apply loop_skips, U. }
  assert (Warn : forall files,
      warnings (log (run_find_unique_images average_hash hash_size threshold
                                            files))
      = map (fun f => (WARNING, SkippingCorrupted f))
            (filter (undecodable average_hash hash_size) files)).
  { intros files. unfold run_find_unique_images.
    rewrite loop_warnings. reflexivity. }
  split; [|split; [exact Skip|split; [exact Warn|]]].
  - intros total_files st i. unfold iteration, undecodable.
    unfold fingerprinted in U.
    destruct (average_hash failed hash_size); [discriminate| |]; reflexivity.
  - intros a b ha hb files Ha Hb N D Hin.
    pose proof (two_distinct_images average_hash hash_size threshold
                                    a b ha hb Ha Hb N D) as Two.
    assert (Ua : undecodable average_hash hash_size a = false)
      by (unfold undecodable; now rewrite Ha).
    assert (Ub : undecodable average_hash hash_size b = false)
      by (unfold undecodable; now rewrite Hb).
    rewrite Warn.
    destruct Hin as [<-|[<-|[<-|[]]]];
      (split;
       [|simpl; rewrite Ua, Ub;
         destruct (undecodable average_hash hash_size failed); reflexivity]).
    + rewrite (Skip [] [a; b] : find_unique_images _ _ _ [failed; a; b] = _).
      simpl app. now rewrite Two.
    + rewrite (Skip [a] [b] : find_unique_images _ _ _ [a; failed; b] = _).
      simpl app. now rewrite Two.
    + rewrite (Skip [a; b] [] : find_unique_images _ _ _ [a; b; failed] = _).
      simpl app. now rewrite Two.
Qed.

Lemma failed_file_is_skipped_and_logged_witness :
  Dict.len (find_unique_images sample_hash 8 0
              ["in/a.jpg"; "in/corrupt.jpg"; "in/d.jpg"]) = 2 /\
  warnings (log (run_find_unique_images sample_hash 8 0
                   ["in/a.jpg"; "in/corrupt.jpg"; "in/d.jpg"]))
  = [(WARNING, SkippingCorrupted "in/corrupt.jpg")].
Proof.
  refine (proj2 (proj2 (proj2
            (failed_file_is_skipped_and_logged sample_hash 8 0
                                               "in/corrupt.jpg" eq_refl)))
            "in/a.jpg" "in/d.jpg" "ffffffffffffffff" "0000000000000000"
            ["in/a.jpg"; "in/corrupt.jpg"; "in/d.jpg"] eq_refl eq_refl _ _ _).
  - discriminate.
  - intros T. lia.
  - simpl. auto.
Defined.

(** C7, as the specification has it, fails: a file that fails to decode
    with another exception than [UnidentifiedImageError] is skipped with an
    error record, and no warning is logged for it. *)
Lemma failed_file_is_not_always_warned_about :
  ~ (forall (average_hash : string -> Z -> image_outcome)
            (hash_size threshold : Z) (files : list string) (f : string),
        In f files ->
        fingerprinted average_hash hash_size f = false ->
        In (WARNING, SkippingCorrupted f)
           (log (run_find_unique_images average_hash hash_size threshold
                                        files))).
Proof.
  intros C.
  specialize (C sample_hash 8%Z 0%Z
                ["in/a.jpg"; "in/truncated.jpg"; "in/d.jpg"]
                "in/truncated.jpg").
  assert (H : In (WARNING, SkippingCorrupted "in/truncated.jpg")
                 (log (run_find_unique_images sample_hash 8 0
                         ["in/a.jpg"; "in/truncated.jpg"; "in/d.jpg"])))
    by (apply C; [simpl; auto | reflexivity]).
  vm_compute in H.
  repeat (destruct H as [H|H]; [discriminate|]). exact H.
Qed.

(** ** Destination names *)

Lemma str_of_nat_inj (m n : nat) : str_of_nat m = str_of_nat n -> m = n.
Proof.
  unfold str_of_nat. intros E.
  apply DecimalNat.Unsigned.to_uint_inj.
  apply (f_equal NilEmpty.uint_of_string) in E.
  rewrite !NilEmpty.usu in E. now injection E.
Qed.

(** A candidate is a fixed prefix, the counter, and the extension. *)
Lemma candidate_shape (output_directory base ext : string) :
  exists prefix, forall counter,
    candidate output_directory base ext counter
    = (prefix ++ str_of_nat counter ++ ext)%string.
Proof.
  unfold candidate, Path.join.
  assert (S : forall x, Path.startswith Path.sep (base ++ "_" ++ x)
                        = Path.startswith Path.sep (base ++ "_")).
  { intros x. destruct base; reflexivity. }
  assert (A : forall p x : string,
             (p ++ base ++ "_" ++ x = (p ++ base ++ "_") ++ x)%string).
  { intros p x. now rewrite !append_associative. }
  destruct (Path.startswith Path.sep (base ++ "_")) eqn:E.
  - exists (base ++ "_")%string. intros counter. rewrite S.
    apply (A EmptyString).
  - destruct ((String.length output_directory =? 0)%nat
              || Path.endswith Path.sep output_directory) eqn:F.
    + exists (output_directory ++ base ++ "_")%string. intros counter.
      rewrite S. apply A.
    + exists (output_directory ++ String Path.sep (base ++ "_"))%string.
      intros counter. rewrite S.
      change (String Path.sep (base ++ "_" ++ str_of_nat counter ++ ext))
        with (String Path.sep EmptyString
              ++ base ++ "_" ++ str_of_nat counter ++ ext)%string.
      rewrite (A (String Path.sep EmptyString)).
      rewrite !append_associative. simpl.
      now rewrite !append_associative.
Qed.

Lemma candidate_inj (output_directory base ext : string) (j k : nat) :
  candidate output_directory base ext j = candidate output_directory base ext k ->
  j = k.
Proof.
  destruct (candidate_shape output_directory base ext) as (prefix & S).
  rewrite !S. intros E.
  apply append_inv_head, append_inv_tail in E.
  apply str_of_nat_inj, E.
Qed.

Lemma exists_in_iff (files : filesystem) (p : string) :
  exists_in files p = true <-> In p files.
Proof.
  unfold exists_in. rewrite existsb_exists. split.
  - intros (q & Hin & E). apply String.eqb_eq in E. now subst.
  - intros Hin. exists p. split; [exact Hin | apply string_eqb_refl].
Qed.

Section Conflicts.

Variable files : filesystem.
Variables output_directory base ext : string.

Local Abbreviation name := (candidate output_directory base ext).
Local Abbreviation taken := (exists_in files).

Lemma candidates_nodup (start len : nat) : NoDup (map name (seq start len)).
Proof.
  revert start. induction len as [|len IH]; intros start; simpl; constructor.
  - rewrite in_map_iff. intros (j & E & Hin).
    apply candidate_inj in E. apply in_seq in Hin. lia.
  - apply IH.
Qed.

(** Not all of the first [length files + 1] candidates exist. *)
Lemma some_candidate_free :
  exists j, 1 <= j <= S (List.length files) /\ taken (name j) = false.
Proof.
  destruct (existsb (fun j => negb (taken (name j)))
                    (seq 1 (S (List.length files)))) eqn:E.
  - apply existsb_exists in E. destruct E as (j & Hin & F).
    apply in_seq in Hin. exists j. split; [lia|].
    now destruct (taken (name j)).
  - exfalso.
    assert (I : incl (map name (seq 1 (S (List.length files)))) files).
    { intros p Hp. apply in_map_iff in Hp. destruct Hp as (j & <- & Hin).
      apply exists_in_iff.
      destruct (taken (name j)) eqn:F; [reflexivity|].
      assert (X : existsb (fun j => negb (taken (name j)))
                          (seq 1 (S (List.length files))) = true).
      { apply existsb_exists. exists j. now rewrite F. }
      congruence. }
    apply NoDup_incl_length in I; [|apply candidates_nodup].
    rewrite length_map, length_seq in I. lia.
Qed.

(** The least counter, from [start] on, whose candidate is free. *)
Lemma least_free (bound start : nat) :
  (exists j, start <= j < start + bound /\ taken (name j) = false) ->
  exists k, start <= k < start + bound /\ taken (name k) = false /\
            forall j, start <= j < k -> taken (name j) = true.
Proof.
  revert start. induction bound as [|bound IH]; intros start (j & B & F).
  - lia.
  - destruct (taken (name start)) eqn:St.
    + destruct (IH (S start)) as (k & Bk & Fk & L).
      { exists j. split; [|exact F].
        assert (j <> start) by congruence. lia. }
      exists k. split; [lia|]. split; [exact Fk|].
      intros i Bi. destruct (Nat.eq_dec i start) as [->|N]; [exact St|].
      apply L. lia.
    + exists start. split; [lia|]. split; [exact St|]. intros i Bi. lia.
Qed.

(** The loop, entered with a destination that exists, returns the candidate
    of the least free counter, given the tests for it. *)
Lemma free_name_least (n counter fuel : nat) (dest_path : string) :
  taken dest_path = true ->
  (forall j, counter <= j < counter + n -> taken (name j) = true) ->
  taken (name (counter + n)) = false ->
  n + 2 <= fuel ->
  free_name fuel files output_directory base ext counter dest_path
  = Some (name (counter + n)).
Proof.
  revert counter fuel dest_path.
  induction n as [|n IH]; intros counter fuel dest_path D L F B.
  - destruct fuel as [|[|fuel]]; try lia. cbn [free_name]. rewrite D.
    rewrite Nat.add_0_r in *. fold (name counter). now rewrite F.
  - destruct fuel as [|fuel]; [lia|]. cbn [free_name]. rewrite D.
    fold (name counter).
    replace (counter + S n) with (S counter + n) in * by lia.
    apply IH.
    + apply (L counter). lia.
    + intros j Bj. apply L. lia.
    + exact F.
    + lia.
Qed.

End Conflicts.

(** C8: a file whose destination name is taken goes to the name with [_1],
    [_2], ... before the extension, of the least counter from 1 on whose name
    is free, and the loop that looks for it ends; a file whose name is free
    keeps it.  The file is then copied or moved there.  Of two files named
    [photo.jpg] the second lands as [photo_1.jpg]. *)
Theorem collision_takes_first_free_counter
        (files : filesystem) (output_directory filepath base ext : string)
        (Sp : Path.splitext (Path.basename filepath) = (base, ext)) :
  let dest_path := Path.join output_directory (Path.basename filepath) in
  let resolved :=
    destination (enough_fuel files) files output_directory filepath in
  (exists_in files dest_path = false -> resolved = Some dest_path) /\
  (exists_in files dest_path = true ->
   exists counter,
     1 <= counter /\
     resolved = Some (candidate output_directory base ext counter) /\
     exists_in files (candidate output_directory base ext counter) = false /\
     forall j, 1 <= j < counter ->
               exists_in files (candidate output_directory base ext j) = true)
  /\
  (forall copy total_files i hash_value records dest,
      resolved = Some dest ->
      exists_in files filepath = true ->
      place copy output_directory total_files i (hash_value, filepath)
            (World files records)
      = (Done tt,
         World (if copy then add_path dest files
                else add_path dest (remove_path filepath files))
               (records ++ [(INFO, Placing i total_files filepath);
                            (DEBUG, PlacedHash hash_value)]))) /\
  (destination (enough_fuel ["out"; "out/photo.jpg"])
               ["out"; "out/photo.jpg"] "out" "in/b/photo.jpg"
   = Some "out/photo_1.jpg" /\
   fs (snd (process_unique_files mkdir_succeeds one_spelling
              [("h1", "in/a/photo.jpg"); ("h2", "in/b/photo.jpg")]
              "out" true
              (World ["in/a/photo.jpg"; "in/b/photo.jpg"] [])))
   = ["in/a/photo.jpg"; "in/b/photo.jpg";
      "out"; "out/photo.jpg"; "out/photo_1.jpg"]).
Proof.
  cbv zeta. unfold destination. rewrite Sp.
  split; [|split; [|split]].
  - intros F. now rewrite F.
  - intros D. rewrite D.
    destruct (some_candidate_free files output_directory base ext)
      as (j & Bj & Fj).
    destruct (least_free files output_directory base ext
                         (S (List.length files)) 1) as (k & Bk & Fk & L).
    { exists j. split; [lia | exact Fj]. }
    exists k. split; [lia|]. split; [|split; [exact Fk | exact L]].
    replace k with (1 + (k - 1)) at 1 by lia.
    apply free_name_least.
    + exact D.
    + intros i Bi. apply L. lia.
    + replace (1 + (k - 1)) with k by lia. exact Fk.
    + unfold enough_fuel. lia.
  - intros copy total_files i hash_value records dest R E.
    unfold place, try_except, bind, get_fs. cbn [fs].
    unfold destination. rewrite Sp, R.
    unfold operation, bind, os_path_exists. cbn [fs]. rewrite E.
    unfold set_fs, logging. destruct copy; cbn -[add_path remove_path];
      rewrite <- app_assoc; reflexivity.
  - split; reflexivity.
Qed.

Lemma collision_takes_first_free_counter_witness :
  exists counter,
    1 <= counter /\
    destination (enough_fuel ["out"; "out/photo.jpg"; "out/photo_1.jpg"])
                ["out"; "out/photo.jpg"; "out/photo_1.jpg"]
                "out" "in/c/photo.jpg"
    = Some (candidate "out" "photo" ".jpg" counter) /\
    exists_in ["out"; "out/photo.jpg"; "out/photo_1.jpg"]
              (candidate "out" "photo" ".jpg" counter) = false /\
    forall j, 1 <= j < counter ->
              exists_in ["out"; "out/photo.jpg"; "out/photo_1.jpg"]
                        (candidate "out" "photo" ".jpg" j) = true.
Proof.
  destruct (collision_takes_first_free_counter
              ["out"; "out/photo.jpg"; "out/photo_1.jpg"]
              "out" "in/c/photo.jpg" "photo" ".jpg" eq_refl)
    as (_ & H & _).
  exact (H eq_refl).
Defined.

(** ** A missing input directory *)

Section MissingInput.

Variable average_hash : string -> Z -> image_outcome.
Variable os_walk : filesystem -> string -> list (string * list string).
Variable mkdir_fails : string -> bool.
Variable open_fails : string -> bool.
Variable spellings : string -> list string.
Variable timestamp : string.

Local Abbreviation run_main :=
  (main average_hash os_walk mkdir_fails open_fails spellings timestamp).
Local Abbreviation set_up :=
  (setup_logging mkdir_fails open_fails spellings timestamp).

Lemma logging_fs (lvl : level) (msg : message) (w : world) :
  logging lvl msg w = (Done tt, World (fs w) (logged w ++ [(lvl, msg)])).
Proof. reflexivity. Qed.

Lemma add_path_exists (p : string) (files : filesystem) :
  exists_in (add_path p files) p = true.
Proof.
  unfold add_path. destruct (exists_in files p) eqn:E; [exact E|].
  apply exists_in_iff, in_or_app. right. simpl. auto.
Qed.

Lemma add_path_keeps (p q : string) (files : filesystem) :
  exists_in files q = true -> exists_in (add_path p files) q = true.
Proof.
  intros H. unfold add_path. destruct (exists_in files p); [exact H|].
  apply exists_in_iff, in_or_app. left. apply exists_in_iff, H.
Qed.

Lemma add_paths_keep (ps : list string) (q : string) (files : filesystem) :
  exists_in files q = true ->
  exists_in (fold_left (fun acc p => add_path p acc) ps files) q = true.
Proof.
  revert files. induction ps as [|p ps IH]; intros files H; simpl; auto.
  apply IH, add_path_keeps, H.
Qed.

Lemma add_paths_exist (ps : list string) (q : string) (files : filesystem) :
  In q ps ->
  exists_in (fold_left (fun acc p => add_path p acc) ps files) q = true.
Proof.
  revert files. induction ps as [|p ps IH]; intros files H; simpl;
    [contradiction|].
  destruct H as [->|H]; [|apply IH, H].
  apply add_paths_keep, add_path_exists.
Qed.

(** Setting up logging returns, or lets the exception of [os.makedirs] or of
    the opening of the log file escape. *)
Lemma setup_logging_cases (output_dir : string) (w : world) :
  fst (set_up output_dir w) = Uncaught \/
  fst (set_up output_dir w) = Done tt.
Proof.
  unfold setup_logging, bind, os_path_exists, makedirs, create, set_fs,
         raise, ret, logging.
  destruct (exists_in (fs w) output_dir); simpl.
  - destruct (open_fails _); simpl; auto.
  - destruct (mkdir_fails output_dir); simpl; auto.
    destruct (open_fails _); simpl; auto.
Qed.

Local Ltac stay := cbn -[add_path Path.join fold_left flat_map append].

(** When it returns the output directory and the log file exist. *)
Lemma setup_logging_creates (output_dir : string) (w : world) :
  fst (set_up output_dir w) = Done tt ->
  exists_in (fs (snd (set_up output_dir w))) output_dir = true /\
  exists_in (fs (snd (set_up output_dir w)))
            (Path.join output_dir ("photo_dedup_" ++ timestamp ++ ".log"))
  = true.
Proof.
  unfold setup_logging, bind, os_path_exists, makedirs, create, set_fs,
         raise, ret, logging.
  destruct (exists_in (fs w) output_dir) eqn:E; stay.
  - destruct (open_fails _); stay; [discriminate|].
    intros _. split.
    + apply add_paths_keep, E.
    + apply add_paths_exist. simpl. auto.
  - destruct (mkdir_fails output_dir); stay; [discriminate|].
    destruct (open_fails _); stay; [discriminate|].
    intros _. split.
    + apply add_paths_keep, add_paths_exist, in_flat_map.
      exists output_dir. split; [apply in_or_app; right|]; simpl; auto.
    + apply add_paths_exist. simpl. auto.
Qed.

(** The run when logging is set up and the input directory is missing
    then. *)
Lemma main_without_input (args : arguments) (w w1 : world) :
  set_up (output_dir args) w = (Done tt, w1) ->
  exists_in (fs w1) (input_dir args) = false ->
  run_main args w =
  (SysExit 1%Z,
   World (fs w1)
         (logged w1 ++
          if threshold_in_range (arg_threshold args)
          then [(INFO, Starting);
                (INFO, InputDirectory (input_dir args));
                (INFO, OutputDirectory (output_dir args));
                (INFO, Options (copy args) (arg_hash_size args)
                               (arg_threshold args) (debug args));
                (ERROR, InputDirectoryMissing (input_dir args))]
          else [(ERROR, ThresholdOutOfRange)])).
Proof.
  intros S Missing. unfold main, bind. rewrite S.
  unfold threshold_in_range.
  destruct ((arg_threshold args <? 0)%Z || (100 <? arg_threshold args)%Z);
    simpl negb; cbv iota.
  - reflexivity.
  - rewrite !logging_fs. unfold scan_directory, bind, os_path_exists.
    cbn [fs logged]. rewrite Missing. unfold logging, sys_exit. simpl.
    rewrite <- !app_assoc. reflexivity.
Qed.

End MissingInput.

(** C6, as the code has it: [main] sets up logging first, which creates the
    output directory when it is missing and the log file of the run in it.
    A run whose input directory is missing once that is done (it is not the
    output directory, one of the ancestors created with it or the log file,
    under any spelling) ends with exit status 1.  When logging was set up,
    the run is exactly this: the four records of the start and the error
    are logged (or the error of the threshold alone), [sys.exit(1)] is
    called, and the file system is the one logging left, in which the
    output directory and the log file exist; nothing is scanned,
    fingerprinted or placed.  When setting up logging raised, that
    exception ends the run. *)
Theorem missing_input_exits_after_logging_setup
        (average_hash : string -> Z -> image_outcome)
        (os_walk : filesystem -> string -> list (string * list string))
        (mkdir_fails open_fails : string -> bool)
        (spellings : string -> list string) (timestamp : string)
        (args : arguments) (w : world)
        (Missing :
           exists_in
             (fs (snd (setup_logging mkdir_fails open_fails spellings
                                     timestamp (output_dir args) w)))
             (input_dir args) = false) :
  let set_up :=
    setup_logging mkdir_fails open_fails spellings timestamp
                  (output_dir args) w in
  let result :=
    main average_hash os_walk mkdir_fails open_fails spellings timestamp
         args w in
  let log_file :=
    Path.join (output_dir args) ("photo_dedup_" ++ timestamp ++ ".log") in
  exit_status (fst result) = Some 1%Z /\
  (fst set_up = Done tt ->
   result =
   (SysExit 1%Z,
    World (fs (snd set_up))
          (logged (snd set_up) ++
           if threshold_in_range (arg_threshold args)
           then [(INFO, Starting);
                 (INFO, InputDirectory (input_dir args));
                 (INFO, OutputDirectory (output_dir args));
                 (INFO, Options (copy args) (arg_hash_size args)
                                (arg_threshold args) (debug args));
                 (ERROR, InputDirectoryMissing (input_dir args))]
           else [(ERROR, ThresholdOutOfRange)])) /\
   exists_in (fs (snd set_up)) (output_dir args) = true /\
   exists_in (fs (snd set_up)) log_file = true) /\
  (fst set_up <> Done tt -> result = (Uncaught, snd set_up)).
Proof.
  cbv zeta.
  pose proof (setup_logging_cases mkdir_fails open_fails spellings timestamp
                                  (output_dir args) w) as Cases.
  pose proof (setup_logging_creates mkdir_fails open_fails spellings
                                    timestamp (output_dir args) w) as Created.
  destruct (setup_logging mkdir_fails open_fails spellings timestamp
                          (output_dir args) w) as [o w1] eqn:S.
  simpl in Missing, Cases, Created. simpl fst. simpl snd.
  destruct Cases as [->| ->].
  - assert (R : main average_hash os_walk mkdir_fails open_fails spellings
                     timestamp args w = (Uncaught, w1))
      by (unfold main, bind; rewrite S; reflexivity).
    rewrite R. split; [reflexivity|]. split; [discriminate | auto].
  - rewrite (main_without_input average_hash os_walk mkdir_fails open_fails
                                spellings timestamp args w w1 S Missing).
    split; [reflexivity|]. split; [|congruence].
    intros _. split; [reflexivity | exact (Created eq_refl)].
Qed.

Lemma missing_input_exits_after_logging_setup_witness :
  main sample_hash sample_walk mkdir_succeeds open_succeeds one_spelling
       sample_timestamp
       (Arguments_ "nonexistent_dir" "out_invalid" false 8 0 false)
       (World sample_files [])
  = (SysExit 1%Z,
     World (sample_files
            ++ ["out_invalid";
                "out_invalid/photo_dedup_20240101_120000.log"])
           [(INFO, LoggingTo "out_invalid/photo_dedup_20240101_120000.log");
            (INFO, Starting);
            (INFO, InputDirectory "nonexistent_dir");
            (INFO, OutputDirectory "out_invalid");
            (INFO, Options false 8 0 false);
            (ERROR, InputDirectoryMissing "nonexistent_dir")]).
Proof.
  pose proof (missing_input_exits_after_logging_setup
                sample_hash sample_walk mkdir_succeeds open_succeeds
                one_spelling sample_timestamp
                (Arguments_ "nonexistent_dir" "out_invalid" false 8 0 false)
                (World sample_files []) eq_refl) as H.
  cbv zeta in H. destruct H as (_ & H & _).
  destruct (H eq_refl) as (R & _). rewrite R. reflexivity.
Defined.

(** C6, as the specification has it, fails: the run on a missing input
    directory ends with exit status 1 but has created the output
    directory. *)
Lemma missing_input_creates_output_directory :
  ~ (forall (average_hash : string -> Z -> image_outcome)
            (os_walk : filesystem -> string -> list (string * list string))
            (mkdir_fails open_fails : string -> bool)
        (spellings : string -> list string) (timestamp : string)
            (args : arguments) (w : world),
        exists_in (fs w) (input_dir args) = false ->
        exists_in (fs w) (output_dir args) = false ->
        let result := main average_hash os_walk mkdir_fails
            open_fails spellings timestamp args w in
        exit_status (fst result) = Some 1%Z /\
        exists_in (fs (snd result)) (output_dir args) = false).
Proof.
  intros C.
  specialize (C sample_hash sample_walk mkdir_succeeds
      open_succeeds one_spelling sample_timestamp
                (Arguments_ "nonexistent_dir" "out_invalid" false 8 0 false)
                (World sample_files []) eq_refl eq_refl).
  cbv zeta in C. destruct C as [_ C]. vm_compute in C. discriminate.
Qed.

(** The condition on the input directory is needed: a missing input
    directory that is also the output directory exists once logging is set
    up, and the run completes with status 0. *)
Lemma missing_input_that_is_the_output_completes :
  exit_status
    (fst (main sample_hash sample_walk mkdir_succeeds
        open_succeeds one_spelling sample_timestamp
               (Arguments_ "new" "new" false 8 0 false) (World [] [])))
  = Some 0%Z.
Proof. reflexivity. Qed.

(** So does one that is the output directory under another spelling, as
    [new/] is of [new]. *)
Lemma missing_input_spelled_with_separator_completes :
  exit_status
    (fst (main sample_hash sample_walk mkdir_succeeds open_succeeds
               with_trailing_separator sample_timestamp
               (Arguments_ "new/" "new" false 8 0 false) (World [] [])))
  = Some 0%Z.
Proof. reflexivity. Qed.

(** When the log file cannot be opened, as under an output path that is a
    regular file, the exception of line 23 ends the run. *)
Lemma unopened_log_file_ends_the_run :
  main sample_hash sample_walk mkdir_succeeds open_refused one_spelling
       sample_timestamp (Arguments_ "in" "in/a.jpg" true 8 0 false)
       (World sample_files [])
  = (Uncaught, World sample_files []).
Proof. reflexivity. Qed.

(** * Further properties of the code *)

(** ** The score *)

Lemma quotient_le (a b c : Z) :
  (0 < b)%Z ->
  (inject_Z a / inject_Z b <= inject_Z c)%Q <-> (a <= c * b)%Z.
Proof.
  intros B.
  assert (Bq : (0 < inject_Z b)%Q)
    by (change 0%Q with (inject_Z 0); rewrite <- Zlt_Qlt; exact B).
  assert (Bn : ~ (inject_Z b == 0)%Q) by (intros E; rewrite E in Bq; lra).
  split.
  - intros H. apply (Qmult_le_l _ _ (inject_Z b) Bq) in H.
    rewrite Qmult_div_r in H by exact Bn.
    rewrite <- inject_Z_mult, <- Zle_Qle in H. lia.
  - intros H. apply Qle_shift_div_r; [exact Bq|].
    rewrite <- inject_Z_mult, <- Zle_Qle. exact H.
Qed.

Lemma quotient_ge (a b c : Z) :
  (0 < b)%Z ->
  (inject_Z c <= inject_Z a / inject_Z b)%Q <-> (c * b <= a)%Z.
Proof.
  intros B.
  assert (Bq : (0 < inject_Z b)%Q)
    by (change 0%Q with (inject_Z 0); rewrite <- Zlt_Qlt; exact B).
  assert (Bn : ~ (inject_Z b == 0)%Q) by (intros E; rewrite E in Bq; lra).
  split.
  - intros H. apply (Qmult_le_l _ _ (inject_Z b) Bq) in H.
    rewrite Qmult_div_r in H by exact Bn.
    rewrite <- inject_Z_mult, <- Zle_Qle in H. lia.
  - intros H. apply Qle_shift_div_l; [exact Bq|].
    rewrite <- inject_Z_mult, <- Zle_Qle. exact H.
Qed.

(** The comparison of line 88 in integers: with [d] differing positions out
    of [len], the score reaches [threshold] when
    [threshold * len + d * 100 <= 100 * len]. *)
Lemma score_reaches (threshold : Z) (d len : nat) :
  0 < len ->
  (inject_Z threshold
   <= 100 - inject_Z (Z.of_nat d * 100) / inject_Z (Z.of_nat len))%Q
  <-> (threshold * Z.of_nat len + Z.of_nat d * 100 <= 100 * Z.of_nat len)%Z.
Proof.
  intros L.
  pose proof (quotient_le (Z.of_nat d * 100) (Z.of_nat len) (100 - threshold))
    as Q.
  rewrite <- (Z.add_opp_r 100), inject_Z_plus, inject_Z_opp in Q.
  change (inject_Z 100) with 100%Q in Q.
  split.
  - intros H. assert (B : (0 < Z.of_nat len)%Z) by lia.
    assert (X : (inject_Z (Z.of_nat d * 100) / inject_Z (Z.of_nat len)
                 <= 100 + - inject_Z threshold)%Q) by lra.
    apply (proj1 (Q B)) in X. lia.
  - intros H. assert (B : (0 < Z.of_nat len)%Z) by lia.
    assert (X : (inject_Z (Z.of_nat d * 100) / inject_Z (Z.of_nat len)
                 <= 100 + - inject_Z threshold)%Q)
      by (apply (proj2 (Q B)); lia).
    lra.
Qed.

Lemma score_at_most (bound : Z) (d len : nat) :
  0 < len ->
  (100 - inject_Z (Z.of_nat d * 100) / inject_Z (Z.of_nat len)
   <= inject_Z bound)%Q
  <-> (100 * Z.of_nat len <= bound * Z.of_nat len + Z.of_nat d * 100)%Z.
Proof.
  intros L.
  pose proof (quotient_ge (Z.of_nat d * 100) (Z.of_nat len) (100 - bound))
    as Q.
  rewrite <- (Z.add_opp_r 100), inject_Z_plus, inject_Z_opp in Q.
  change (inject_Z 100) with 100%Q in Q.
  assert (B : (0 < Z.of_nat len)%Z) by lia.
  split.
  - intros H.
    assert (X : (100 + - inject_Z bound
                 <= inject_Z (Z.of_nat d * 100) / inject_Z (Z.of_nat len))%Q)
      by lra.
    apply (proj1 (Q B)) in X. lia.
  - intros H.
    assert (X : (100 + - inject_Z bound
                 <= inject_Z (Z.of_nat d * 100) / inject_Z (Z.of_nat len))%Q)
      by (apply (proj2 (Q B)); lia).
    lra.
Qed.

Lemma diff_bits_le (hash1 hash2 : string) :
  diff_bits hash1 hash2 <= String.length hash1.
Proof.
  revert hash2. induction hash1 as [|a r IH]; intros [|b s]; simpl; try lia.
  specialize (IH s). destruct (Ascii.eqb a b); lia.
Qed.

Lemma diff_bits_zero (hash1 hash2 : string) :
  String.length hash1 = String.length hash2 ->
  diff_bits hash1 hash2 = 0 <-> hash1 = hash2.
Proof.
  revert hash2. induction hash1 as [|a r IH]; intros [|b s] L; simpl in *;
    try discriminate; [tauto|].
  injection L as L. specialize (IH s L).
  destruct (Ascii.eqb a b) eqn:E.
  - apply Ascii.eqb_eq in E. subst b. simpl. split.
    + intros H. f_equal. apply IH, H.
    + intros H. injection H as H. apply IH, H.
  - apply Ascii.eqb_neq in E. split; [discriminate|].
    intros H. injection H as H _. contradiction.
Qed.

Lemma calculate_similarity_cases (hash1 hash2 : string) :
  (String.length hash1 <> String.length hash2 /\
   _calculate_similarity hash1 hash2 = Ok 0%Q) \/
  (hash1 = EmptyString /\ hash2 = EmptyString /\
   _calculate_similarity hash1 hash2 = ZeroDivisionError) \/
  (String.length hash1 = String.length hash2 /\ 0 < String.length hash1 /\
   _calculate_similarity hash1 hash2 =
   Ok (100 - inject_Z (Z.of_nat (diff_bits hash1 hash2) * 100)
             / inject_Z (Z.of_nat (String.length hash1)))%Q).
Proof.
  destruct (Nat.eq_dec (String.length hash1) (String.length hash2)) as [E|N].
  - destruct hash1 as [|a r].
    + destruct hash2; [|discriminate]. right; left. auto.
    + right; right. split; [exact E|]. split; [simpl; lia|].
      apply calculate_similarity_positions; [exact E | discriminate].
  - left. split; [exact N | apply calculate_similarity_unequal, N].
Qed.

Lemma score_bounds (hash1 hash2 : string) (s : Q) :
  _calculate_similarity hash1 hash2 = Ok s -> (0 <= s <= 100)%Q.
Proof.
  intros H.
  destruct (calculate_similarity_cases hash1 hash2)
    as [(_ & E)|[(_ & _ & E)|(_ & L & E)]]; rewrite E in H.
  - injection H as <-. lra.
  - discriminate.
  - injection H as <-.
    pose proof (diff_bits_le hash1 hash2) as D. split.
    + change 0%Q with (inject_Z 0). apply score_reaches; [exact L | lia].
    + change 100%Q with (inject_Z 100). apply score_at_most; [exact L | lia].
Qed.

Lemma full_score (hash1 hash2 : string) (s : Q) :
  _calculate_similarity hash1 hash2 = Ok s ->
  (100 <= s)%Q <-> hash1 = hash2.
Proof.
  intros H.
  destruct (calculate_similarity_cases hash1 hash2)
    as [(N & E)|[(_ & _ & E)|(Len & L & E)]]; rewrite E in H.
  - injection H as <-. split; [lra | intros ->; contradiction].
  - discriminate.
  - injection H as <-. change 100%Q with (inject_Z 100).
    rewrite score_reaches by exact L.
    rewrite <- (diff_bits_zero hash1 hash2 Len). lia.
Qed.

(** X1: the score does not depend on the order of the two hashes, and
    neither does the outcome of the comparison with the threshold. *)
Theorem score_is_symmetric (threshold : Z) (hash1 hash2 : string) :
  _calculate_similarity hash1 hash2 = _calculate_similarity hash2 hash1 /\
  similar_enough threshold hash1 hash2 = similar_enough threshold hash2 hash1.
Proof.
  unfold similar_enough.
  rewrite (calculate_similarity_sym hash1 hash2). split; reflexivity.
Qed.

(** X2: a score, when the function returns one, is a percentage: it lies
    between 0 and 100. *)
Theorem score_is_a_percentage (hash1 hash2 : string) (s : Q)
        (H : _calculate_similarity hash1 hash2 = Ok s) :
  (0 <= s <= 100)%Q.
Proof. exact (score_bounds hash1 hash2 s H). Qed.

Lemma score_is_a_percentage_witness :
  (0 <= 1500 # 16 <= 100)%Q.
Proof.
  exact (score_is_a_percentage "0000000000000000" "0000000000000001"
                               (1500 # 16) eq_refl).
Defined.

(** X3: the division of line 112 fails on one input only, two empty
    strings; every other pair of strings gets a score. *)
Theorem score_fails_on_empty_strings_only (hash1 hash2 : string) :
  _calculate_similarity hash1 hash2 = ZeroDivisionError
  <-> hash1 = EmptyString /\ hash2 = EmptyString.
Proof.
  split.
  - intros H.
    destruct (calculate_similarity_cases hash1 hash2)
      as [(_ & E)|[(E1 & E2 & _)|(_ & _ & E)]]; try congruence. auto.
  - intros [-> ->]. reflexivity.
Qed.

Lemma score_fails_on_empty_strings_only_witness :
  _calculate_similarity "" "" = ZeroDivisionError.
Proof.
  apply (score_fails_on_empty_strings_only "" ""). split; reflexivity.
Defined.

(** X4: the score is 100 for two identical strings and for no other pair,
    so that threshold 100 calls two images duplicates exactly when their hash
    strings are equal. *)
Theorem full_score_means_identical (hash1 hash2 : string) (s : Q)
        (H : _calculate_similarity hash1 hash2 = Ok s) :
  ((100 <= s)%Q <-> hash1 = hash2) /\
  (similar_enough 100 hash1 hash2 = Ok true <-> hash1 = hash2).
Proof.
  split; [exact (full_score hash1 hash2 s H)|].
  rewrite similar_enough_true. unfold reaches_threshold.
  change (inject_Z 100) with 100%Q. split.
  - intros (s' & E & L). apply (full_score hash1 hash2 s' E), L.
  - intros E. exists s. split; [exact H|].
    apply (full_score hash1 hash2 s H), E.
Qed.

Lemma full_score_means_identical_witness :
  similar_enough 100 "00ff" "00fe" = Ok true <-> "00ff" = "00fe".
Proof.
  exact (proj2 (full_score_means_identical "00ff" "00fe" (300 # 4) eq_refl)).
Defined.

(** ** The returned mapping *)

Lemma in_set (d : Dict.t) (k v : string) (entry : string * string) :
  In entry (Dict.set d k v) -> In entry d \/ entry = (k, v).
Proof.
  induction d as [|[k' v'] rest IH]; simpl.
  - intros [<-|[]]. auto.
  - destruct (String.eqb k' k) eqn:E; simpl.
    + apply String.eqb_eq in E. subst k'. intros [<-|H]; auto.
    + intros [<-|H]; auto. destruct (IH H); auto.
Qed.

Lemma keys_set (d : Dict.t) (k v : string) :
  Dict.keys (Dict.set d k v) =
  if existsb (String.eqb k) (Dict.keys d) then Dict.keys d
  else Dict.keys d ++ [k].
Proof.
  destruct (keys_set_cases d k v) as [[E I]|[E I]].
  - rewrite E. apply (exists_in_iff (Dict.keys d)) in I.
    unfold exists_in in I. now rewrite I.
  - rewrite E, keys_app. simpl.
    destruct (existsb (String.eqb k) (Dict.keys d)) eqn:X; [|reflexivity].
    apply (exists_in_iff (Dict.keys d)) in X. contradiction.
Qed.

Section Mapping.

Variable average_hash : string -> Z -> image_outcome.
Variable hash_size : Z.
Variable threshold : Z.

Local Abbreviation step := (iteration average_hash hash_size threshold).
Local Abbreviation run_loop := (loop average_hash hash_size threshold).

Lemma loop_entries (total_files : nat) (files : list string) (i : nat)
      (st : state) (h p : string) :
  In (h, p) (unique_images (run_loop total_files files i st)) ->
  In (h, p) (unique_images st) \/
  In p files /\ average_hash p hash_size = Hashed h.
Proof.
  revert i st. induction files as [|f files IH]; intros i st H; simpl in *;
    [auto|].
  apply IH in H. destruct H as [H|[H E]]; [|auto].
  destruct (iteration_cases average_hash hash_size threshold total_files st i f)
    as [R|(h' & Hh & R & _)]; rewrite R in H; [auto|].
  apply in_set in H. destruct H as [H|H]; [auto|].
  injection H as -> ->. auto.
Qed.

End Mapping.

(** X5: whatever the threshold, every entry of the returned mapping is a
    file of the input under the fingerprint it was given: no path and no
    fingerprint is made up, and no path stands under a fingerprint of
    another file. *)
Theorem entries_are_fingerprinted_inputs
        (average_hash : string -> Z -> image_outcome)
        (hash_size threshold : Z) (files : list string)
        (hash_value filepath : string)
        (H : In (hash_value, filepath)
                (find_unique_images average_hash hash_size threshold files)) :
  In filepath files /\ average_hash filepath hash_size = Hashed hash_value.
Proof.
  unfold find_unique_images, run_find_unique_images in H.
  apply loop_entries in H. destruct H as [[]|H]. exact H.
Qed.

Lemma entries_are_fingerprinted_inputs_witness :
  In "in/d.jpg" ["in/a.jpg"; "in/d.jpg"] /\
  sample_hash "in/d.jpg" 8 = Hashed "0000000000000000".
Proof.
  apply (entries_are_fingerprinted_inputs sample_hash 8 90
           ["in/a.jpg"; "in/d.jpg"] "0000000000000000" "in/d.jpg").
  vm_compute. auto.
Defined.

Lemma fingerprints_of_snoc (average_hash : string -> Z -> image_outcome)
      (hash_size : Z) (files : list string) (f : string) :
  fingerprints_of average_hash hash_size (files ++ [f]) =
  fingerprints_of average_hash hash_size files
  ++ match average_hash f hash_size with Hashed h => [h] | _ => [] end.
Proof.
  unfold fingerprints_of. rewrite flat_map_app. simpl.
  now rewrite app_nil_r.
Qed.

Lemma exact_keys (average_hash : string -> Z -> image_outcome)
      (hash_size : Z) (total_files : nat) (files : list string) (i : nat) :
  Dict.keys (unique_images
               (loop average_hash hash_size 0 total_files files i initial))
  = first_occurrences (fingerprints_of average_hash hash_size files).
Proof.
  revert i. induction files as [|f files IH] using rev_ind; intros i;
    [reflexivity|].
  rewrite loop_snoc, exact_iteration, fingerprints_of_snoc.
  unfold first_occurrences in *. rewrite fold_left_app, <- (IH i).
  destruct (average_hash f hash_size) as [h| |]; simpl; try reflexivity.
  apply keys_set.
Qed.

(** X6: in exact mode the keys of the returned mapping are the fingerprints
    of the input, each once, in the order in which they first occur; with C1
    the mapping pairs the place of the first file of a fingerprint with the
    path of the last. *)
Theorem exact_mode_keys_in_order_of_first_occurrence
        (average_hash : string -> Z -> image_outcome)
        (hash_size : Z) (files : list string) :
  Dict.keys (find_unique_images average_hash hash_size 0 files)
  = first_occurrences (fingerprints_of average_hash hash_size files).
Proof. apply exact_keys. Qed.

(** ** Which file stands for a fingerprint *)

Lemma find_app_string (p : string -> bool) (l1 l2 : list string) :
  find p (l1 ++ l2) =
  match find p l1 with Some x => Some x | None => find p l2 end.
Proof.
  induction l1 as [|x l1 IH]; simpl; [reflexivity|].
  destruct (p x); [reflexivity | exact IH].
Qed.

Lemma is_similar_stays_covered (threshold : Z) (h : string)
      (l1 l2 : list string) :
  is_similar threshold h l1 <> Ok false ->
  is_similar threshold h (l1 ++ l2) <> Ok false.
Proof.
  induction l1 as [|k l1 IH]; simpl; [congruence|].
  destruct (similar_enough threshold h k) as [[|]|]; auto.
Qed.

Lemma is_similar_covers_itself (threshold : Z) (h : string) (l : list string) :
  (threshold <= 100)%Z ->
  is_similar threshold h (l ++ [h]) <> Ok false.
Proof.
  intros T E.
  apply (dissimilar_is_new threshold h (l ++ [h]) T E).
  apply in_or_app. right. simpl. auto.
Qed.

Section FirstKept.

Variable average_hash : string -> Z -> image_outcome.
Variable hash_size : Z.
Variable threshold : Z.
Hypothesis near_duplicate_mode : (0 < threshold)%Z.
Hypothesis percentage : (threshold <= 100)%Z.

Local Abbreviation run_loop := (loop average_hash hash_size threshold).
Local Abbreviation first_file := (first_with_hash average_hash hash_size).

(** Every fingerprinted file met so far is a duplicate of a representative
    (or the comparison with one fails), and a representative is the first
    file with its fingerprint. *)
Lemma loop_first_kept (total_files : nat) (files : list string) (i : nat) :
  let d := unique_images (run_loop total_files files i initial) in
  (forall f h, In f files -> average_hash f hash_size = Hashed h ->
               is_similar threshold h (Dict.keys d) <> Ok false) /\
  (forall h f, Dict.get d h = Some f -> first_file h files = Some f).
Proof.
  cbv zeta. revert i.
  induction files as [|f files IH] using rev_ind; intros i.
  - split; [intros f h []|]. simpl. discriminate.
  - destruct (IH i) as [Cov Fst]. clear IH.
    rewrite loop_snoc.
    set (d := unique_images (run_loop total_files files i initial)) in *.
    assert (Keep : forall h f0, first_file h files = Some f0 ->
                                first_file h (files ++ [f]) = Some f0).
    { intros h f0 E. unfold first_with_hash in *.
      now rewrite find_app_string, E. }
    destruct (average_hash f hash_size) as [h'| |] eqn:Hf.
    + rewrite (near_iteration average_hash hash_size threshold
                              near_duplicate_mode _ _ _ _ _ Hf).
      fold d.
      destruct (is_similar threshold h' (Dict.keys d)) as [[|]|] eqn:S.
      * split.
        -- intros f0 h Hin Hh. apply in_app_or in Hin.
           destruct Hin as [Hin|[<-|[]]]; [eauto|]. congruence.
        -- intros h f0 G. auto.
      * assert (New : ~ In h' (Dict.keys d))
          by (apply (dissimilar_is_new threshold); assumption).
        rewrite (set_absent d h' f New). split.
        -- intros f0 h Hin Hh. rewrite keys_app. simpl.
           apply in_app_or in Hin. destruct Hin as [Hin|[<-|[]]].
           ++ apply is_similar_stays_covered. eauto.
           ++ assert (h = h') by congruence. subst h.
              apply is_similar_covers_itself, percentage.
        -- intros h f0 G.
           destruct (String.eqb h' h) eqn:E.
           ++ apply String.eqb_eq in E. subst h.
              rewrite <- (set_absent d h' f New), get_set_same in G.
              injection G as <-.
              unfold first_with_hash. rewrite find_app_string.
              destruct (find (has_hash average_hash hash_size h') files)
                as [f1|] eqn:F1.
              ** exfalso. apply find_some in F1. destruct F1 as [In1 H1].
                 unfold has_hash in H1.
                 destruct (average_hash f1 hash_size) as [h1| |] eqn:A1;
                   try discriminate.
                 apply String.eqb_eq in H1. subst h1.
                 exact (Cov f1 h' In1 A1 S).
              ** simpl. unfold has_hash. rewrite Hf, string_eqb_refl.
                 reflexivity.
           ++ apply String.eqb_neq in E.
              rewrite <- (set_absent d h' f New) in G.
              rewrite get_set_other in G by congruence. auto.
      * split.
        -- intros f0 h Hin Hh. apply in_app_or in Hin.
           destruct Hin as [Hin|[<-|[]]]; [eauto|]. congruence.
        -- intros h f0 G. auto.
    + assert (Same : unique_images
                       (iteration average_hash hash_size threshold total_files
                          (run_loop total_files files i initial)
                          (i + List.length files) f) = d)
        by (unfold iteration; rewrite Hf; reflexivity).
      rewrite Same. split.
      * intros f0 h Hin Hh. apply in_app_or in Hin.
        destruct Hin as [Hin|[<-|[]]]; [eauto|]. congruence.
      * intros h f0 G. auto.
    + assert (Same : unique_images
                       (iteration average_hash hash_size threshold total_files
                          (run_loop total_files files i initial)
                          (i + List.length files) f) = d)
        by (unfold iteration; rewrite Hf; reflexivity).
      rewrite Same. split.
      * intros f0 h Hin Hh. apply in_app_or in Hin.
        destruct Hin as [Hin|[<-|[]]]; [eauto|]. congruence.
      * intros h f0 G. auto.
Qed.

End FirstKept.

(** X7: in near-duplicate mode, up to threshold 100, the path stored under a
    fingerprint is the one of the first file of the input with that
    fingerprint (where exact mode stores the last, C1). *)
Theorem near_duplicate_mode_keeps_first
        (average_hash : string -> Z -> image_outcome)
        (hash_size threshold : Z) (files : list string)
        (hash_value filepath : string)
        (T : (0 < threshold <= 100)%Z)
        (G : Dict.get (find_unique_images average_hash hash_size threshold
                                          files) hash_value
             = Some filepath) :
  first_with_hash average_hash hash_size hash_value files = Some filepath.
Proof.
  destruct T as [T0 T100].
  exact (proj2 (loop_first_kept average_hash hash_size threshold T0 T100
                                (List.length files) files 1)
               hash_value filepath G).
Qed.

Lemma near_duplicate_mode_keeps_first_witness :
  first_with_hash sample_hash 8 "ffffffffffffffff"
                  ["in/d.jpg"; "in/a.jpg"; "in/b.jpg"] = Some "in/a.jpg".
Proof.
  apply (near_duplicate_mode_keeps_first sample_hash 8 100
           ["in/d.jpg"; "in/a.jpg"; "in/b.jpg"]
           "ffffffffffffffff" "in/a.jpg").
  - lia.
  - reflexivity.
Defined.

(** X8: in near-duplicate mode, up to threshold 100, no image is dropped
    without a stand-in: every fingerprinted file of the input scores the
    threshold or more against some representative of the returned mapping
    (itself, when it was accepted). *)
Theorem every_image_has_a_representative
        (average_hash : string -> Z -> image_outcome)
        (hash_size threshold : Z) (files : list string)
        (filepath hash_value : string)
        (T : (0 < threshold <= 100)%Z)
        (I : In filepath files)
        (F : average_hash filepath hash_size = Hashed hash_value)
        (N : hash_value <> EmptyString) :
  exists k,
    In k (Dict.keys (find_unique_images average_hash hash_size threshold
                                        files)) /\
    reaches_threshold threshold hash_value k.
Proof.
  destruct T as [T0 T100].
  pose proof (proj1 (loop_first_kept average_hash hash_size threshold T0 T100
                                     (List.length files) files 1)
                    filepath hash_value I F) as C.
  unfold find_unique_images, run_find_unique_images.
  destruct (is_similar_defined threshold hash_value
              (Dict.keys (unique_images
                 (loop average_hash hash_size threshold (List.length files)
                       files 1 initial))) N) as ([|] & E);
    [|contradiction].
  destruct (is_similar_true_elim _ _ _ E) as (k & Hin & S).
  exists k. split; [exact Hin|]. apply similar_enough_true, S.
Qed.

Lemma every_image_has_a_representative_witness :
  exists k,
    In k (Dict.keys (find_unique_images sample_hash 8 90
                       ["in/a.jpg"; "in/b.jpg"; "in/c.jpg"; "in/d.jpg"])) /\
    reaches_threshold 90 "fffffffffffffffe" k.
Proof.
  apply (every_image_has_a_representative sample_hash 8 90
           ["in/a.jpg"; "in/b.jpg"; "in/c.jpg"; "in/d.jpg"]
           "in/c.jpg" "fffffffffffffffe").
  - lia.
  - simpl. auto.
  - reflexivity.
  - discriminate.
Defined.

(** ** Running again on the representatives *)

Lemma values_app (d e : Dict.t) :
  Dict.values (d ++ e) = Dict.values d ++ Dict.values e.
Proof. apply map_app. Qed.

Section Rerun.

Variable average_hash : string -> Z -> image_outcome.
Variable hash_size : Z.
Variable threshold : Z.

Local Abbreviation run_loop := (loop average_hash hash_size threshold).

(** A mapping with distinct keys, whose paths carry their keys as
    fingerprints and whose keys are mutually dissimilar in near-duplicate
    mode, is what the loop builds from its own paths. *)
Lemma loop_rebuilds (d : Dict.t) :
  NoDup (Dict.keys d) ->
  (forall k v, In (k, v) d -> average_hash v hash_size = Hashed k) ->
  ((0 < threshold)%Z -> mutually_dissimilar threshold (Dict.keys d)) ->
  forall total_files i,
    unique_images (run_loop total_files (Dict.values d) i initial) = d.
Proof.
  induction d as [|[k v] d IH] using rev_ind; intros N Sound Dis total_files i;
    [reflexivity|].
  rewrite keys_app in N, Dis. simpl in N, Dis.
  assert (Nd : NoDup (Dict.keys d)) by (eapply NoDup_app_remove_r; exact N).
  assert (New : ~ In k (Dict.keys d)).
  { intros Hin. apply NoDup_remove_2 in N. rewrite app_nil_r in N. auto. }
  assert (Hv : average_hash v hash_size = Hashed k)
    by (apply Sound, in_or_app; right; simpl; auto).
  rewrite values_app. simpl. rewrite loop_snoc.
  assert (Before : unique_images (run_loop total_files (Dict.values d) i initial)
                   = d).
  { apply IH; [exact Nd | |].
    - intros k0 v0 Hin. apply Sound, in_or_app. auto.
    - intros T h1 h2 H1 H2. apply (Dis T); apply in_or_app; auto. }
  destruct (Z.ltb_spec 0 threshold) as [T|T].
  - rewrite (near_iteration average_hash hash_size threshold T _ _ _ _ _ Hv).
    rewrite Before, is_similar_false_intro; [apply set_absent, New|].
    intros k0 Hin. apply similar_enough_false, (Dis T).
    + apply in_or_app. right. simpl. auto.
    + apply in_or_app. auto.
    + intros ->. contradiction.
  - rewrite iteration_nonpositive, exact_iteration, Hv, Before by exact T.
    apply set_absent, New.
Qed.

End Rerun.

(** X9: the selection is stable: a second call on the paths the first call
    returned (in the order of the mapping, with the same hash size and
    threshold) returns the same mapping, whatever the threshold. *)
Theorem rerun_on_representatives_is_stable
        (average_hash : string -> Z -> image_outcome)
        (hash_size threshold : Z) (files : list string) :
  find_unique_images
    average_hash hash_size threshold
    (Dict.values (find_unique_images average_hash hash_size threshold files))
  = find_unique_images average_hash hash_size threshold files.
Proof.
  unfold find_unique_images at 1. unfold run_find_unique_images.
  apply loop_rebuilds.
  - apply loop_nodup. constructor.
  - intros k v Hin.
    unfold find_unique_images, run_find_unique_images in Hin.
    apply loop_entries in Hin. destruct Hin as [[]|[_ H]]. exact H.
  - intros T. apply (loop_dissimilar average_hash hash_size threshold T).
    intros h1 h2 [].
Qed.

(** ** Threshold 100 *)

Lemma similar_enough_100 (h k : string) :
  h <> EmptyString ->
  similar_enough 100 h k = Ok (String.eqb h k).
Proof.
  intros N.
  destruct (calculate_similarity_defined h k N) as (s & Es).
  destruct (similar_enough_defined 100 h k N) as (b & Eb). rewrite Eb.
  f_equal. destruct b.
  - apply similar_enough_true in Eb. destruct Eb as (s' & E' & L).
    symmetry. apply String.eqb_eq.
    apply (full_score h k s' E'). exact L.
  - destruct (String.eqb h k) eqn:E; [|reflexivity].
    apply String.eqb_eq in E. apply (full_score h k s Es) in E.
    apply similar_enough_false in Eb. destruct Eb as (s' & E' & L).
    rewrite Es in E'. injection E' as <-.
    change (inject_Z 100) with 100%Q in L. lra.
Qed.

Lemma is_similar_100 (h : string) (l : list string) :
  h <> EmptyString ->
  is_similar 100 h l = Ok (existsb (String.eqb h) l).
Proof.
  intros N. induction l as [|k l IH]; simpl; [reflexivity|].
  rewrite similar_enough_100 by exact N.
  destruct (String.eqb h k); [reflexivity | exact IH].
Qed.

Lemma get_none_absent (d : Dict.t) (k : string) :
  Dict.get d k = None -> ~ In k (Dict.keys d).
Proof.
  induction d as [|[k' v'] rest IH]; simpl; [tauto|].
  destruct (String.eqb k' k) eqn:E; [discriminate|].
  apply String.eqb_neq in E. intros H [F|F]; [contradiction|]. tauto.
Qed.

Lemma keys_100 (average_hash : string -> Z -> image_outcome)
      (hash_size : Z) (total_files : nat) (files : list string) (i : nat) :
  (forall f, In f files -> average_hash f hash_size <> Hashed EmptyString) ->
  Dict.keys (unique_images
               (loop average_hash hash_size 100 total_files files i initial))
  = first_occurrences (fingerprints_of average_hash hash_size files).
Proof.
  assert (T0 : (0 < 100)%Z) by lia.
  induction files as [|f files IH] using rev_ind; intros N; [reflexivity|].
  rewrite loop_snoc, fingerprints_of_snoc.
  unfold first_occurrences in *. rewrite fold_left_app.
  rewrite <- (IH (fun f0 Hin => N f0 (in_or_app _ _ _ (or_introl Hin)))).
  destruct (average_hash f hash_size) as [h| |] eqn:Hf.
  - rewrite (near_iteration average_hash hash_size 100 T0 _ _ _ _ _ Hf).
    assert (Nh : h <> EmptyString).
    { intros ->. apply (N f); [apply in_or_app; right; simpl; auto|].
      exact Hf. }
    rewrite is_similar_100 by exact Nh. simpl.
    destruct (existsb (String.eqb h) _) eqn:X; [reflexivity|].
    rewrite keys_set, X. reflexivity.
  - unfold iteration. rewrite Hf. reflexivity.
  - unfold iteration. rewrite Hf. reflexivity.
Qed.

(** X10: threshold 100 is exact matching that keeps the first file.  On
    hashes as imagehash prints them (not empty) the call with threshold 100
    returns the keys of exact mode in the same order, each with the first
    file of its fingerprint, where threshold 0 returns the last (C1). *)
Theorem threshold_100_is_exact_matching_keeping_first
        (average_hash : string -> Z -> image_outcome)
        (hash_size : Z) (files : list string)
        (N : forall f, In f files ->
                       average_hash f hash_size <> Hashed EmptyString) :
  Dict.keys (find_unique_images average_hash hash_size 100 files)
  = Dict.keys (find_unique_images average_hash hash_size 0 files) /\
  forall h,
    Dict.get (find_unique_images average_hash hash_size 100 files) h
    = first_with_hash average_hash hash_size h files.
Proof.
  assert (T0 : (0 < 100)%Z) by lia. assert (T100 : (100 <= 100)%Z) by lia.
  split.
  - unfold find_unique_images, run_find_unique_images.
    rewrite keys_100 by exact N. symmetry. apply exact_keys.
  - intros h.
    pose proof (loop_first_kept average_hash hash_size 100 T0 T100
                                (List.length files) files 1) as [Cov Fst].
    unfold find_unique_images, run_find_unique_images.
    destruct (Dict.get _ h) as [f|] eqn:G; [symmetry; apply Fst, G|].
    symmetry. unfold first_with_hash.
    destruct (find (has_hash average_hash hash_size h) files) as [f|] eqn:F;
      [|reflexivity].
    exfalso. apply find_some in F. destruct F as [Hin Hh].
    unfold has_hash in Hh.
    destruct (average_hash f hash_size) as [h1| |] eqn:A; try discriminate.
    apply String.eqb_eq in Hh. subst h1.
    assert (Nh : h <> EmptyString).
    { intros ->. exact (N f Hin A). }
    apply get_none_absent in G.
    apply (Cov f h Hin A). rewrite is_similar_100 by exact Nh. f_equal.
    destruct (existsb (String.eqb h) _) eqn:X; [|reflexivity].
    apply (exists_in_iff (Dict.keys _) h) in X. contradiction.
Qed.

Lemma threshold_100_is_exact_matching_keeping_first_witness :
  Dict.get (find_unique_images sample_hash 8 100
              ["in/a.jpg"; "in/d.jpg"; "in/b.jpg"]) "ffffffffffffffff"
  = first_with_hash sample_hash 8 "ffffffffffffffff"
                    ["in/a.jpg"; "in/d.jpg"; "in/b.jpg"].
Proof.
  refine (proj2 (threshold_100_is_exact_matching_keeping_first sample_hash 8
                   ["in/a.jpg"; "in/d.jpg"; "in/b.jpg"] _)
                "ffffffffffffffff").
  intros f [<-|[<-|[<-|[]]]]; vm_compute; discriminate.
Defined.

(** ** Placement *)

Lemma destination_cases (files : filesystem)
      (output_directory filepath : string) :
  let filename := Path.basename filepath in
  (exists_in files (Path.join output_directory filename) = false /\
   destination (enough_fuel files) files output_directory filepath
   = Some (Path.join output_directory filename)) \/
  (exists_in files (Path.join output_directory filename) = true /\
   exists counter,
     1 <= counter /\
     destination (enough_fuel files) files output_directory filepath
     = Some (candidate output_directory (fst (Path.splitext filename))
                       (snd (Path.splitext filename)) counter) /\
     exists_in files
       (candidate output_directory (fst (Path.splitext filename))
                  (snd (Path.splitext filename)) counter) = false).
Proof.
  unfold destination. cbv zeta.
  destruct (exists_in files
              (Path.join output_directory (Path.basename filepath))) eqn:D;
    [right | left; auto].
  split; [reflexivity|].
  destruct (Path.splitext (Path.basename filepath)) as [base ext].
  cbn [fst snd].
  destruct (some_candidate_free files output_directory base ext)
    as (j & Bj & Fj).
  destruct (least_free files output_directory base ext
                       (S (List.length files)) 1) as (k & Bk & Fk & L).
  { exists j. split; [lia | exact Fj]. }
  exists k. split; [lia|]. split; [|exact Fk].
  replace k with (1 + (k - 1)) at 1 by lia.
  apply free_name_least.
  - exact D.
  - intros i Bi. apply L. lia.
  - replace (1 + (k - 1)) with k by lia. exact Fk.
  - unfold enough_fuel. lia.
Qed.

Lemma destination_free (files : filesystem)
      (output_directory filepath : string) :
  exists dest,
    destination (enough_fuel files) files output_directory filepath
    = Some dest /\
    exists_in files dest = false.
Proof.
  destruct (destination_cases files output_directory filepath)
    as [(F & E)|(_ & counter & _ & E & F)]; eauto.
Qed.

(** X11: the destination of a file is always found, the search for it ends,
    and it is a path that does not exist: placing a file never overwrites
    one. *)
Theorem destination_never_exists (files : filesystem)
        (output_directory filepath : string) :
  exists dest,
    destination (enough_fuel files) files output_directory filepath
    = Some dest /\
    exists_in files dest = false /\
    forall fuel, enough_fuel files <= fuel ->
      destination fuel files output_directory filepath = Some dest.
Proof.
  destruct (destination_free files output_directory filepath)
    as (dest & E & F).
  exists dest. split; [exact E|]. split; [exact F|].
  intros fuel B. revert E. unfold destination. cbv zeta.
  destruct (exists_in files
              (Path.join output_directory (Path.basename filepath)));
    [|auto].
  destruct (Path.splitext (Path.basename filepath)) as [base ext].
  generalize (Path.join output_directory (Path.basename filepath)).
  generalize 1. revert fuel B. generalize (enough_fuel files).
  intros small. induction small as [|small IH]; intros fuel B c p E;
    [discriminate|].
  destruct fuel as [|fuel]; [lia|]. simpl in *.
  destruct (exists_in files p); [|exact E].
  apply IH; [lia | exact E].
Qed.

(** ** The shape of a destination *)

Lemma contains_append (c : ascii) (a b : string) :
  contains c (a ++ b) = contains c a || contains c b.
Proof.
  induction a as [|x a IH]; simpl; [reflexivity|].
  rewrite IH. apply orb_assoc.
Qed.

Lemma contains_take (c : ascii) (n : nat) (p : string) :
  contains c p = false -> contains c (Path.take n p) = false.
Proof.
  revert p. induction n as [|n IH]; intros [|a p]; simpl; auto.
  intros H. apply orb_false_iff in H. destruct H as [-> H]. simpl. auto.
Qed.

Lemma contains_drop (c : ascii) (n : nat) (p : string) :
  contains c p = false -> contains c (Path.drop n p) = false.
Proof.
  revert p. induction n as [|n IH]; intros [|a p]; simpl; auto.
  intros H. apply orb_false_iff in H. destruct H as [_ H]. auto.
Qed.

Lemma take_drop (n : nat) (p : string) :
  (Path.take n p ++ Path.drop n p)%string = p.
Proof.
  revert p. induction n as [|n IH]; intros [|a p]; simpl; auto.
  now rewrite IH.
Qed.

(** [rfind] finds nothing in a string without the character, and otherwise
    a position after which the character does not occur. *)
Lemma rfind_from_cases (c : ascii) (p : string) (i last : Z) :
  (contains c p = false /\ Path.rfind_from c p i last = last) \/
  (exists n, Path.rfind_from c p i last = (i + Z.of_nat n)%Z /\
             contains c (Path.drop (S n) p) = false).
Proof.
  revert i last. induction p as [|a p IH]; intros i last; simpl; [auto|].
  destruct (IH (i + 1)%Z (if Ascii.eqb a c then i else last))
    as [[C R]|(n & R & C)].
  - destruct (Ascii.eqb a c) eqn:E.
    + right. exists 0. split; [rewrite R; simpl; lia|].
      simpl. destruct p; exact C.
    + left. auto.
  - right. exists (S n). split; [rewrite R; lia | exact C].
Qed.

Lemma basename_no_separator (p : string) :
  contains Path.sep (Path.basename p) = false.
Proof.
  unfold Path.basename, Path.rfind.
  destruct (rfind_from_cases Path.sep p 0 (-1)) as [[C R]|(n & R & C)];
    rewrite R.
  - simpl. destruct p; exact C.
  - replace (Z.to_nat (0 + Z.of_nat n + 1)) with (S n) by lia. exact C.
Qed.

Lemma splitext_parts (p : string) :
  (fst (Path.splitext p) ++ snd (Path.splitext p))%string = p /\
  (contains Path.sep p = false ->
   contains Path.sep (fst (Path.splitext p)) = false /\
   contains Path.sep (snd (Path.splitext p)) = false).
Proof.
  unfold Path.splitext.
  assert (Whole : (p ++ EmptyString)%string = p).
  { induction p as [|a p IH]; simpl; [reflexivity | now rewrite IH]. }
  destruct (Path.rfind Path.sep p <? Path.rfind Path.extsep p)%Z;
    [|simpl; auto].
  destruct (Path.all_dots _); simpl; [auto|].
  split; [apply take_drop|].
  intros C. split; [apply contains_take | apply contains_drop]; exact C.
Qed.

Lemma str_of_nat_no_separator (n : nat) :
  contains Path.sep (str_of_nat n) = false.
Proof.
  unfold str_of_nat. generalize (Nat.to_uint n). intros d.
  induction d; simpl; auto.
Qed.

Lemma join_no_separator (a b : string) :
  contains Path.sep b = false ->
  Path.join a b = (a ++ b)%string \/ Path.join a b = (a ++ String Path.sep b)%string.
Proof.
  intros C. unfold Path.join.
  assert (S : Path.startswith Path.sep b = false).
  { destruct b as [|x b]; [reflexivity|]. simpl in *.
    apply orb_false_iff in C. tauto. }
  rewrite S. destruct (_ || _); auto.
Qed.

(** X12: a file is placed in the output directory under a single path
    component that ends with the extension of its own name: the destination
    is the output directory, a separator where one is missing, and a name
    without separator that keeps the extension. *)
Theorem destination_in_output_directory_with_extension
        (files : filesystem) (output_directory filepath dest : string)
        (R : destination (enough_fuel files) files output_directory filepath
             = Some dest) :
  exists stem,
    let name :=
      (stem ++ snd (Path.splitext (Path.basename filepath)))%string in
    contains Path.sep name = false /\
    dest = Path.join output_directory name /\
    (dest = (output_directory ++ name)%string \/
     dest = (output_directory ++ String Path.sep name)%string).
Proof.
  pose proof (basename_no_separator filepath) as B.
  destruct (splitext_parts (Path.basename filepath)) as [Whole Parts].
  destruct (Parts B) as [Cb Ce].
  destruct (destination_cases files output_directory filepath)
    as [(_ & E)|(_ & counter & _ & E & _)]; rewrite E in R;
    injection R as <-.
  - exists (fst (Path.splitext (Path.basename filepath))). cbv zeta.
    rewrite Whole. split; [exact B|]. split; [reflexivity|].
    apply join_no_separator, B.
  - exists (fst (Path.splitext (Path.basename filepath))
            ++ "_" ++ str_of_nat counter)%string.
    cbv zeta. unfold candidate.
    rewrite !append_associative.
    assert (C : contains Path.sep
                  (fst (Path.splitext (Path.basename filepath)) ++ "_"
                   ++ str_of_nat counter
                   ++ snd (Path.splitext (Path.basename filepath)))
                = false).
    { rewrite !contains_append, Cb, Ce, str_of_nat_no_separator.
      reflexivity. }
    split; [exact C|]. split; [reflexivity|].
    apply join_no_separator, C.
Qed.

Lemma destination_in_output_directory_with_extension_witness :
  exists stem,
    contains Path.sep (stem ++ ".jpg") = false /\
    "out/photo_1.jpg" = Path.join "out" (stem ++ ".jpg") /\
    ("out/photo_1.jpg" = ("out" ++ stem ++ ".jpg")%string \/
     "out/photo_1.jpg" = ("out" ++ String Path.sep (stem ++ ".jpg"))%string).
Proof.
  exact (destination_in_output_directory_with_extension
           ["out"; "out/photo.jpg"] "out" "in/b/photo.jpg"
           "out/photo_1.jpg" eq_refl).
Defined.

(** ** The placement loop *)

Lemma place_result (copy : bool) (output_directory : string)
      (total_files i : nat) (hash_value filepath : string) (w : world) :
  exists dest,
    exists_in (fs w) dest = false /\
    place copy output_directory total_files i (hash_value, filepath) w =
    if exists_in (fs w) filepath then
      (Done tt,
       World (if copy then add_path dest (fs w)
              else add_path dest (remove_path filepath (fs w)))
             (logged w ++ [(INFO, Placing i total_files filepath);
                           (DEBUG, PlacedHash hash_value)]))
    else
      (Done tt, World (fs w) (logged w ++ [(ERROR, ErrorPlacing filepath)])).
Proof.
  destruct (destination_free (fs w) output_directory filepath)
    as (dest & E & F).
  exists dest. split; [exact F|].
  unfold place, try_except, bind, get_fs. cbn [fs]. rewrite E.
  unfold operation, bind, os_path_exists.
  destruct (exists_in (fs w) filepath); simpl.
  - unfold set_fs, logging. destruct copy; cbn -[add_path remove_path];
      rewrite <- app_assoc; reflexivity.
  - reflexivity.
Qed.

Lemma place_all_done (copy : bool) (output_directory : string)
      (total_files : nat) (entries : list (string * string)) (i : nat)
      (w : world) :
  fst (place_all copy output_directory total_files i entries w) = Done tt.
Proof.
  revert i w. induction entries as [|[h p] rest IH]; intros i w;
    cbn [place_all]; [reflexivity|].
  unfold bind.
  destruct (place_result copy output_directory total_files i h p w)
    as (dest & _ & ->).
  destruct (exists_in (fs w) p); apply IH.
Qed.

Lemma place_all_copy_keeps (output_directory : string) (total_files : nat)
      (entries : list (string * string)) (i : nat) (w : world) (q : string) :
  exists_in (fs w) q = true ->
  exists_in (fs (snd (place_all true output_directory total_files i
                                entries w))) q = true.
Proof.
  revert i w. induction entries as [|[h p] rest IH]; intros i w H;
    cbn [place_all]; [exact H|].
  unfold bind.
  destruct (place_result true output_directory total_files i h p w)
    as (dest & _ & ->).
  destruct (exists_in (fs w) p); apply IH; simpl;
    [apply add_path_keeps|]; exact H.
Qed.



(** X14: copying removes nothing: every path that exists before
    [process_unique_files] runs with [copy=True] exists after it. *)
Theorem copying_keeps_every_path
        (mkdir_fails : string -> bool) (spellings : string -> list string)
        (filetable : Dict.t)
        (output_directory : string) (w : world) (p : string)
        (E : exists_in (fs w) p = true) :
  exists_in (fs (snd (process_unique_files mkdir_fails spellings filetable
                                           output_directory true w))) p
  = true.
Proof.
  unfold process_unique_files, bind, os_path_exists, try_except, makedirs.
  destruct (exists_in (fs w) output_directory); simpl.
  - apply place_all_copy_keeps, E.
  - destruct (mkdir_fails output_directory); simpl; [exact E|].
    apply place_all_copy_keeps. simpl. apply add_paths_keep, E.
Qed.

Lemma copying_keeps_every_path_witness :
  exists_in (fs (snd (process_unique_files mkdir_succeeds one_spelling
                        [("h1", "in/a.jpg"); ("h2", "in/d.jpg")] "out" true
                        (World sample_files [])))) "in/a.jpg"
  = true.
Proof.
  exact (copying_keeps_every_path mkdir_succeeds one_spelling
           [("h1", "in/a.jpg"); ("h2", "in/d.jpg")] "out"
           (World sample_files []) "in/a.jpg" eq_refl).
Defined.

(** ** The whole run *)

Section Run.

Variable average_hash : string -> Z -> image_outcome.
Variable os_walk : filesystem -> string -> list (string * list string).
Variable mkdir_fails : string -> bool.
Variable open_fails : string -> bool.
Variable spellings : string -> list string.
Variable timestamp : string.

Local Abbreviation run_main := (main average_hash os_walk mkdir_fails
    open_fails spellings timestamp).
Local Abbreviation set_up := (setup_logging mkdir_fails
    open_fails spellings timestamp).

Lemma scan_directory_existing (directory : string) (w : world) :
  exists_in (fs w) directory = true ->
  scan_directory os_walk directory w =
  (Done (scanned os_walk (fs w) directory),
   World (fs w)
         (logged w ++
          match scanned os_walk (fs w) directory with
          | [] => [(WARNING, NoSupportedImages directory)]
          | _ => []
          end)).
Proof.
  intros E. unfold scan_directory, bind, os_path_exists, get_fs.
  rewrite E. simpl. fold (scanned os_walk (fs w) directory).
  destruct (scanned os_walk (fs w) directory); simpl.
  - reflexivity.
  - destruct w. simpl. now rewrite app_nil_r.
Qed.

Lemma process_in_existing_directory (filetable : Dict.t)
      (output_directory : string) (copy : bool) (w : world) :
  exists_in (fs w) output_directory = true ->
  process_unique_files mkdir_fails spellings filetable output_directory copy w =
  place_all copy output_directory (Dict.len filetable) 1 filetable w.
Proof.
  intros E. unfold process_unique_files, bind, os_path_exists.
  rewrite E. reflexivity.
Qed.

(** The run that passes the three checks. *)
Lemma main_completes (args : arguments) (w w1 : world) :
  set_up (output_dir args) w = (Done tt, w1) ->
  threshold_in_range (arg_threshold args) = true ->
  exists_in (fs w1) (input_dir args) = true ->
  let files := scanned os_walk (fs w1) (input_dir args) in
  let unique_files :=
    find_unique_images average_hash (arg_hash_size args) (arg_threshold args)
                       files in
  exists w2 w3,
    fs w2 = fs w1 /\
    place_all (copy args) (output_dir args) (Dict.len unique_files) 1
              unique_files w2 = (Done tt, w3) /\
    run_main args w =
    (Done tt,
     World (fs w3)
           (logged w3
            ++ [(INFO, Found (Dict.len unique_files) (List.length files))])).
Proof.
  intros S T E. cbv zeta.
  pose proof (setup_logging_creates mkdir_fails
      open_fails spellings timestamp (output_dir args) w)
    as Created.
  rewrite S in Created. simpl in Created.
  destruct (Created eq_refl) as [Out _].
  unfold threshold_in_range in T. apply negb_true_iff in T.
  set (files := scanned os_walk (fs w1) (input_dir args)).
  set (st := run_find_unique_images average_hash (arg_hash_size args)
                                    (arg_threshold args) files).
  set (w2 := World (fs w1)
               ((logged w1
                 ++ [(INFO, Starting)]
                 ++ [(INFO, InputDirectory (input_dir args))]
                 ++ [(INFO, OutputDirectory (output_dir args))]
                 ++ [(INFO, Options (copy args) (arg_hash_size args)
                                    (arg_threshold args) (debug args))]
                 ++ match files with
                    | [] => [(WARNING, NoSupportedImages (input_dir args))]
                    | _ => []
                    end)
                ++ log st)).
  destruct (place_all (copy args) (output_dir args)
                      (Dict.len (unique_images st)) 1 (unique_images st) w2)
    as [o w3] eqn:P.
  assert (O : o = Done tt).
  { pose proof (place_all_done (copy args) (output_dir args)
                               (Dict.len (unique_images st))
                               (unique_images st) 1 w2) as D.
    rewrite P in D. exact D. }
  subst o. exists w2, w3. split; [reflexivity|]. split; [exact P|].
  unfold main. unfold bind at 1. rewrite S, T.
  unfold bind at 1. rewrite logging_fs.
  unfold bind at 1. rewrite logging_fs.
  unfold bind at 1. rewrite logging_fs.
  unfold bind at 1. rewrite logging_fs.
  unfold bind at 1. cbn [fs logged].
  rewrite scan_directory_existing by exact E. cbn [fs logged]. fold files.
  unfold bind at 1. unfold find_unique_images_M. cbn [fs logged]. fold st.
  unfold bind at 1.
  rewrite process_in_existing_directory by exact Out.
  change (find_unique_images average_hash (arg_hash_size args)
            (arg_threshold args) files) with (unique_images st).
  match goal with
  | |- (let (o, w') := ?X in _) = _ =>
      replace X with (@Done unit tt, w3)
        by (symmetry; rewrite <- P; unfold w2; rewrite <- !app_assoc;
            reflexivity)
  end.
  reflexivity.
Qed.

End Run.

(** X16: once the command line is parsed, the exit status of a run is
    decided by three checks and by nothing else: it is 0 when setting up
    logging returned (neither [os.makedirs] nor the opening of the log file
    raised), the threshold lies in [0, 100] and the input directory exists
    once logging is set up, and 1 otherwise.  No file that fails to decode
    or to be placed changes it. *)
Theorem exit_status_is_decided_by_three_checks
        (average_hash : string -> Z -> image_outcome)
        (os_walk : filesystem -> string -> list (string * list string))
        (mkdir_fails open_fails : string -> bool)
        (spellings : string -> list string) (timestamp : string)
        (args : arguments) (w : world) :
  let set_up :=
    setup_logging mkdir_fails open_fails spellings timestamp
                  (output_dir args) w in
  let checks :=
    match fst set_up with Done _ => true | _ => false end
    && threshold_in_range (arg_threshold args)
    && exists_in (fs (snd set_up)) (input_dir args) in
  exit_status
    (fst (main average_hash os_walk mkdir_fails open_fails spellings
               timestamp args w))
  = Some (if checks then 0 else 1)%Z.
Proof.
  cbv zeta.
  pose proof (setup_logging_cases mkdir_fails open_fails spellings timestamp
                                  (output_dir args) w) as Cases.
  destruct (setup_logging mkdir_fails open_fails spellings timestamp
                          (output_dir args) w) as [o w1] eqn:S.
  simpl in Cases. simpl fst. simpl snd.
  destruct Cases as [->| ->].
  - unfold main, bind. rewrite S. reflexivity.
  - destruct (exists_in (fs w1) (input_dir args)) eqn:E.
    + destruct (threshold_in_range (arg_threshold args)) eqn:T.
      * destruct (main_completes average_hash os_walk mkdir_fails open_fails
                                 spellings timestamp args w w1 S T E)
          as (w2 & w3 & _ & _ & ->).
        reflexivity.
      * unfold threshold_in_range in T. apply negb_false_iff in T.
        unfold main, bind. rewrite S, T. reflexivity.
    + rewrite (main_without_input average_hash os_walk mkdir_fails open_fails
                                  spellings timestamp args w w1 S E).
      rewrite andb_false_r. reflexivity.
Qed.

(** X17: a threshold outside [0, 100] ends the run with exit code 1 right
    after logging is set up: the error is logged, nothing is scanned, hashed
    or placed, whether or not the input directory exists; the output
    directory and the log file were created before. *)
Theorem threshold_out_of_range_exits_before_scanning
        (average_hash : string -> Z -> image_outcome)
        (os_walk : filesystem -> string -> list (string * list string))
        (mkdir_fails open_fails : string -> bool)
        (spellings : string -> list string) (timestamp : string)
        (args : arguments) (w w1 : world)
        (T : (arg_threshold args < 0 \/ 100 < arg_threshold args)%Z)
        (S : setup_logging mkdir_fails
            open_fails spellings timestamp (output_dir args) w
             = (Done tt, w1)) :
  main average_hash os_walk mkdir_fails open_fails spellings timestamp args w
  = (SysExit 1%Z,
     World (fs w1) (logged w1 ++ [(ERROR, ThresholdOutOfRange)])) /\
  exists_in (fs w1) (output_dir args) = true.
Proof.
  split.
  - unfold main, bind. rewrite S.
    assert (B : (arg_threshold args <? 0)%Z || (100 <? arg_threshold args)%Z
                = true).
    { apply orb_true_iff. destruct T as [T|T]; [left | right];
        apply Z.ltb_lt; exact T. }
    rewrite B. reflexivity.
  - pose proof (setup_logging_creates mkdir_fails
      open_fails spellings timestamp (output_dir args)
                                      w) as C.
    rewrite S in C. apply C. reflexivity.
Qed.

Lemma threshold_out_of_range_exits_before_scanning_witness :
  fst (main sample_hash sample_walk mkdir_succeeds
      open_succeeds one_spelling sample_timestamp
            (Arguments_ "in" "out" true 8 101 false) (World sample_files []))
  = SysExit 1%Z.
Proof.
  pose proof (threshold_out_of_range_exits_before_scanning
                sample_hash sample_walk mkdir_succeeds
                    open_succeeds one_spelling sample_timestamp
                (Arguments_ "in" "out" true 8 101 false)
                (World sample_files [])
                (snd (setup_logging mkdir_succeeds
                    open_succeeds one_spelling sample_timestamp "out"
                                    (World sample_files [])))) as H.
  destruct H as [H _]; [right; simpl; lia | reflexivity |].
  rewrite H. reflexivity.
Defined.

(** X18: a run that passes the checks returns normally, and the last record
    it logs counts the representatives found among the files scanned: the
    size of the mapping [find_unique_images] returns for the list
    [scan_directory] built, which is never more than the length of that
    list. *)
Theorem completed_run_reports_its_counts
        (average_hash : string -> Z -> image_outcome)
        (os_walk : filesystem -> string -> list (string * list string))
        (mkdir_fails open_fails : string -> bool)
        (spellings : string -> list string) (timestamp : string)
        (args : arguments) (w w1 : world)
        (S : setup_logging mkdir_fails
            open_fails spellings timestamp (output_dir args) w
             = (Done tt, w1))
        (T : (0 <= arg_threshold args <= 100)%Z)
        (E : exists_in (fs w1) (input_dir args) = true) :
  let files := scanned os_walk (fs w1) (input_dir args) in
  let unique_files :=
    find_unique_images average_hash (arg_hash_size args) (arg_threshold args)
                       files in
  let result := main average_hash os_walk mkdir_fails
      open_fails spellings timestamp args w in
  fst result = Done tt /\
  (exists earlier,
      logged (snd result)
      = earlier ++ [(INFO, Found (Dict.len unique_files)
                                 (List.length files))]) /\
  Dict.len unique_files <= List.length files.
Proof.
  cbv zeta.
  assert (R : threshold_in_range (arg_threshold args) = true).
  { unfold threshold_in_range. apply negb_true_iff, orb_false_iff.
    split; apply Z.ltb_ge; lia. }
  destruct (main_completes average_hash os_walk mkdir_fails
      open_fails spellings timestamp
                           args w w1 S R E) as (w2 & w3 & _ & _ & ->).
  split; [reflexivity|]. split; [exists (logged w3); reflexivity|].
  unfold find_unique_images, run_find_unique_images.
  etransitivity; [apply loop_len_upper|]. simpl. apply filter_length_le.
Qed.

Lemma completed_run_reports_its_counts_witness :
  exists earlier,
    logged (snd (main sample_hash sample_walk mkdir_succeeds
        open_succeeds one_spelling sample_timestamp
                      (Arguments_ "in" "out" true 8 0 false)
                      (World sample_files [])))
    = earlier ++ [(INFO, Found 3 5)].
Proof.
  pose proof (completed_run_reports_its_counts
                sample_hash sample_walk mkdir_succeeds
                    open_succeeds one_spelling sample_timestamp
                (Arguments_ "in" "out" true 8 0 false)
                (World sample_files [])
                (snd (setup_logging mkdir_succeeds
                    open_succeeds one_spelling sample_timestamp "out"
                                    (World sample_files [])))) as H.
  cbv zeta in H.
  destruct H as (_ & H & _); [reflexivity | simpl; lia | reflexivity |].
  exact H.
Defined.

(** ** Which names the scan accepts *)

Lemma lower_char_sep (a : ascii) :
  Ascii.eqb (Path.lower_char a) Path.sep = Ascii.eqb a Path.sep.
Proof. destruct a as [[] [] [] [] [] [] [] []]; reflexivity. Qed.

Lemma lower_char_extsep (a : ascii) :
  Ascii.eqb (Path.lower_char a) Path.extsep = Ascii.eqb a Path.extsep.
Proof. destruct a as [[] [] [] [] [] [] [] []]; reflexivity. Qed.

Lemma lower_append (a b : string) :
  Path.lower (a ++ b) = (Path.lower a ++ Path.lower b)%string.
Proof. induction a as [|x a IH]; simpl; [reflexivity | now rewrite IH]. Qed.

Lemma lower_drop (n : nat) (s : string) :
  Path.lower (Path.drop n s) = Path.drop n (Path.lower s).
Proof.
  revert s. induction n as [|n IH]; intros [|a s]; simpl; auto.
Qed.

Lemma contains_sep_lower (s : string) :
  contains Path.sep (Path.lower s) = contains Path.sep s.
Proof.
  induction s as [|a s IH]; simpl; [reflexivity|].
  now rewrite lower_char_sep, IH.
Qed.

Lemma all_dots_lower (s : string) :
  Path.all_dots (Path.lower s) = Path.all_dots s.
Proof.
  induction s as [|a s IH]; simpl; [reflexivity|].
  now rewrite lower_char_extsep, IH.
Qed.

Lemma rfind_from_absent (c : ascii) (p : string) (i last : Z) :
  contains c p = false -> Path.rfind_from c p i last = last.
Proof.
  revert i last. induction p as [|a p IH]; intros i last C; simpl in *;
    [reflexivity|].
  apply orb_false_iff in C. destruct C as [E C]. rewrite E. apply IH, C.
Qed.

Lemma rfind_from_last (c : ascii) (a b : string) (i last : Z) :
  contains c b = false ->
  Path.rfind_from c (a ++ String c b) i last
  = (i + Z.of_nat (String.length a))%Z.
Proof.
  revert i last. induction a as [|x a IH]; intros i last C; simpl.
  - rewrite Ascii.eqb_refl, rfind_from_absent by exact C. lia.
  - rewrite IH by exact C. lia.
Qed.

Lemma take_append (a b : string) : Path.take (String.length a) (a ++ b) = a.
Proof. induction a as [|x a IH]; simpl; [now destruct b | now rewrite IH]. Qed.

Lemma drop_append (a b : string) : Path.drop (String.length a) (a ++ b) = b.
Proof. induction a as [|x a IH]; simpl; [now destruct b | exact IH]. Qed.

Lemma splitext_stem_extension (stem rest : string) :
  contains Path.sep stem = false ->
  contains Path.sep rest = false ->
  contains Path.extsep rest = false ->
  Path.splitext (stem ++ String Path.extsep rest) =
  if Path.all_dots stem then ((stem ++ String Path.extsep rest)%string,
                              EmptyString)
  else (stem, String Path.extsep rest).
Proof.
  intros Cs Cr Cd. unfold Path.splitext, Path.rfind.
  rewrite (rfind_from_absent Path.sep)
    by (rewrite contains_append, Cs; simpl; exact Cr).
  rewrite rfind_from_last by exact Cd.
  replace (-1 <? 0 + Z.of_nat (String.length stem))%Z with true
    by (symmetry; apply Z.ltb_lt; lia).
  replace (Z.to_nat (0 + Z.of_nat (String.length stem)))
    with (String.length stem) by lia.
  rewrite take_append, drop_append. simpl.
  destruct stem; reflexivity.
Qed.

(** X19: which names [scan_directory] takes for images.  A name made of a
    stem without separator and of an extension that is, in lower case, one
    of the five supported ones is accepted exactly when the stem has a
    character that is not a dot ([photo.JPG] is, [.jpg] and [..png] are
    not); and every accepted name is of that form. *)
Theorem supported_names
        (name : string) :
  (forall stem ext,
      name = (stem ++ ext)%string ->
      In (Path.lower ext) SUPPORTED_FORMATS ->
      contains Path.sep stem = false ->
      supported name = negb (Path.all_dots stem)) /\
  (supported name = true ->
   exists stem ext,
     name = (stem ++ ext)%string /\ In (Path.lower ext) SUPPORTED_FORMATS).
Proof.
  split.
  - intros stem ext -> Hin Cs. unfold supported.
    rewrite lower_append.
    assert (Cl : contains Path.sep (Path.lower stem) = false)
      by (rewrite contains_sep_lower; exact Cs).
    rewrite <- (all_dots_lower stem).
    simpl in Hin.
    destruct Hin as [<-|[<-|[<-|[<-|[<-|[]]]]]];
      rewrite splitext_stem_extension by (exact Cl || reflexivity);
      destruct (Path.all_dots (Path.lower stem)); reflexivity.
  - unfold supported. intros H.
    destruct (splitext_parts (Path.lower name)) as [Whole _].
    set (base := fst (Path.splitext (Path.lower name))) in *.
    set (ext := snd (Path.splitext (Path.lower name))) in *.
    exists (Path.take (String.length base) name),
           (Path.drop (String.length base) name).
    split; [symmetry; apply take_drop|].
    rewrite lower_drop, <- Whole, drop_append.
    apply existsb_exists in H. destruct H as (e & Hin & E).
    apply String.eqb_eq in E. now subst e.
Qed.

Lemma supported_names_witness :
  supported "photo.JPG" = negb (Path.all_dots "photo") /\
  supported ".jpg" = negb (Path.all_dots "").
Proof.
  split.
  - apply (proj1 (supported_names "photo.JPG") "photo" ".JPG");
      [reflexivity | simpl; auto | reflexivity].
  - apply (proj1 (supported_names ".jpg") "" ".jpg");
      [reflexivity | simpl; auto | reflexivity].
Defined.

(** ** Files that fail, and thresholds above 100 *)

Lemma loop_ignores_failures (average_hash : string -> Z -> image_outcome)
      (hash_size threshold : Z) (total1 total2 : nat) (files : list string)
      (i1 i2 : nat) (st1 st2 : state) :
  unique_images st1 = unique_images st2 ->
  unique_images (loop average_hash hash_size threshold total1 files i1 st1) =
  unique_images
    (loop average_hash hash_size threshold total2
          (filter (fingerprinted average_hash hash_size) files) i2 st2).
Proof.
  revert i1 i2 st1 st2.
  induction files as [|f files IH]; intros i1 i2 st1 st2 E; simpl; [exact E|].
  unfold fingerprinted at 1.
  destruct (average_hash f hash_size) as [h| |] eqn:Hf.
  - simpl. apply IH, iteration_congruence, E.
  - apply IH. unfold iteration. rewrite Hf. exact E.
  - apply IH. unfold iteration. rewrite Hf. exact E.
Qed.

(** X20: the selection depends on the fingerprinted files only: the files
    of the input that could not be opened or hashed, for whatever reason, can
    be left out of the list without changing the returned mapping. *)
Theorem failed_files_do_not_influence_the_selection
        (average_hash : string -> Z -> image_outcome)
        (hash_size threshold : Z) (files : list string) :
  find_unique_images average_hash hash_size threshold files
  = find_unique_images average_hash hash_size threshold
      (filter (fingerprinted average_hash hash_size) files).
Proof.
  unfold find_unique_images, run_find_unique_images.
  apply loop_ignores_failures. reflexivity.
Qed.

Lemma never_similar_above_100 (threshold : Z) (h : string)
      (existing : list string) :
  (100 < threshold)%Z ->
  h <> EmptyString ->
  is_similar threshold h existing = Ok false.
Proof.
  intros T N. apply is_similar_false_intro. intros k _.
  apply similar_enough_false.
  destruct (calculate_similarity_defined h k N) as (s & E).
  exists s. split; [exact E|].
  pose proof (score_bounds h k s E) as [_ B].
  assert (L : (100 < inject_Z threshold)%Q).
  { change 100%Q with (inject_Z 100). rewrite <- Zlt_Qlt. exact T. }
  lra.
Qed.

Lemma loop_above_100 (average_hash : string -> Z -> image_outcome)
      (hash_size threshold : Z) (total_files : nat) (files : list string)
      (i : nat) (st : state) :
  (100 < threshold)%Z ->
  (forall f, In f files -> average_hash f hash_size <> Hashed EmptyString) ->
  loop average_hash hash_size threshold total_files files i st
  = loop average_hash hash_size 0 total_files files i st.
Proof.
  intros T. revert i st.
  induction files as [|f files IH]; intros i st N; simpl; [reflexivity|].
  assert (Step : iteration average_hash hash_size threshold total_files st i f
                 = iteration average_hash hash_size 0 total_files st i f).
  { unfold iteration.
    destruct (average_hash f hash_size) as [h| |] eqn:Hf; try reflexivity.
    assert (Nh : h <> EmptyString).
    { intros ->. apply (N f); [simpl; auto | exact Hf]. }
    replace (0 <? threshold)%Z with true by (symmetry; apply Z.ltb_lt; lia).
    rewrite never_similar_above_100 by assumption. reflexivity. }
  rewrite Step. apply IH. intros f0 Hin. apply N. simpl. auto.
Qed.

(** X21: above 100 the threshold is out of reach: no score exceeds 100, so
    on hashes as imagehash prints them (not empty) a call with a threshold
    above 100 discards nothing by similarity and returns the mapping, and
    logs the records, of exact mode. *)
Theorem threshold_above_100_is_exact_mode
        (average_hash : string -> Z -> image_outcome)
        (hash_size threshold : Z) (files : list string)
        (T : (100 < threshold)%Z)
        (N : forall f, In f files ->
                       average_hash f hash_size <> Hashed EmptyString) :
  run_find_unique_images average_hash hash_size threshold files
  = run_find_unique_images average_hash hash_size 0 files.
Proof.
  unfold run_find_unique_images. apply loop_above_100; assumption.
Qed.

Lemma threshold_above_100_is_exact_mode_witness :
  run_find_unique_images sample_hash 8 101
                         ["in/a.jpg"; "in/b.jpg"; "in/c.jpg"]
  = run_find_unique_images sample_hash 8 0
                           ["in/a.jpg"; "in/b.jpg"; "in/c.jpg"].
Proof.
  apply (threshold_above_100_is_exact_mode sample_hash 8 101
           ["in/a.jpg"; "in/b.jpg"; "in/c.jpg"]).
  - lia.
  - intros f [<-|[<-|[<-|[]]]]; vm_compute; discriminate.
Defined.
